(** * xonsh: the context-aware AST transformer of [xonsh/ast.py]

    A shallow embedding of [leftmostname] and of the [CtxAwareTransformer]
    class, together with the part of CPython's [ast.NodeTransformer] the class
    inherits ([visit] and [generic_visit]).  The transformer rewrites
    expression statements whose leftmost name is unknown in the current
    context into subprocess calls, re-parsing their source line. *)

From Stdlib Require Import ZArith Bool Ascii String List Lia.
From stdpp Require Import gmap sets list strings.

Set Warnings "-register-all".

(** ** Syntax trees

    Python's [ast] nodes are dynamically typed: any node may sit in any field.
    One inductive type therefore holds every class.  The classes that
    [xonsh/ast.py] dispatches on, tests with [isinstance] or reads attributes
    of have a constructor of their own, with the fields in [_fields] order;
    every remaining class of the [ast] module is an [Other] node that records
    the class name and the AST-valued entries of its fields, in field order.
    Operator and expression-context nodes have no fields; they are kept as
    plain tokens. *)

Record pos : Type := Pos { lineno : Z; col_offset : Z }.

Inductive expr_context : Type := Load | Store | Del.

(** The class name of an operator node ([Add], [Sub], [Lt], ...). *)
Definition operator : Type := string.
Definition cmpop : Type := string.

Inductive node : Type :=
| Module (p : pos) (body : list node)
| Expr (p : pos) (value : node)
| Assign (p : pos) (targets : list node) (value : node)
| Delete (p : pos) (targets : list node)
| Import (p : pos) (names : list node)
| ImportFrom (p : pos) (module : option string) (names : list node) (level : Z)
| With (p : pos) (items : list node) (body : list node)
| For (p : pos) (target iter : node) (body orelse : list node)
| FunctionDef (p : pos) (name : string) (args : node) (body : list node)
    (decorator_list : list node) (returns : option node)
| ClassDef (p : pos) (name : string) (bases keywords : list node)
    (starargs kwargs : option node) (body : list node)
    (decorator_list : list node)
| Try (p : pos) (body handlers orelse finalbody : list node)
| Global (p : pos) (names : list string)
| Name (p : pos) (id : string) (ctx : expr_context)
| BinOp (p : pos) (left : node) (op : operator) (right : node)
| Compare (p : pos) (left : node) (ops : list cmpop) (comparators : list node)
| Attribute (p : pos) (value : node) (attr : string) (ctx : expr_context)
| Subscript (p : pos) (value slice : node) (ctx : expr_context)
| Starred (p : pos) (value : node) (ctx : expr_context)
| Call (p : pos) (func : node) (args keywords : list node)
    (starargs kwargs : option node)
| Tuple (p : pos) (elts : list node) (ctx : expr_context)
| List (p : pos) (elts : list node) (ctx : expr_context)
| alias (p : pos) (name : string) (asname : option string)
| withitem (p : pos) (context_expr : node) (optional_vars : option node)
| ExceptHandler (p : pos) (type : option node) (name : option string)
    (body : list node)
| arg (p : pos) (arg : string) (annotation : option node)
| Other (cls : string) (p : pos) (children : list node).

(** The position attributes of a node, and their assignment
    ([n.lineno = l], [n.col_offset = c]). *)
Definition node_pos (n : node) : pos :=
  match n with
  | Module p _ | Expr p _ | Assign p _ _ | Delete p _ | Import p _
  | ImportFrom p _ _ _ | With p _ _ | For p _ _ _ _
  | FunctionDef p _ _ _ _ _ | ClassDef p _ _ _ _ _ _ _ | Try p _ _ _ _
  | Global p _ | Name p _ _ | BinOp p _ _ _ | Compare p _ _ _
  | Attribute p _ _ _ | Subscript p _ _ _ | Starred p _ _
  | Call p _ _ _ _ _ | Tuple p _ _ | List p _ _ | alias p _ _
  | withitem p _ _ | ExceptHandler p _ _ _ | arg p _ _ | Other _ p _ => p
  end.

Definition with_pos (f : pos -> pos) (n : node) : node :=
  match n with
  | Module p b => Module (f p) b
  | Expr p v => Expr (f p) v
  | Assign p ts v => Assign (f p) ts v
  | Delete p ts => Delete (f p) ts
  | Import p ns => Import (f p) ns
  | ImportFrom p m ns l => ImportFrom (f p) m ns l
  | With p its b => With (f p) its b
  | For p t i b o => For (f p) t i b o
  | FunctionDef p nm a b d r => FunctionDef (f p) nm a b d r
  | ClassDef p nm bs ks sa ka b d => ClassDef (f p) nm bs ks sa ka b d
  | Try p b hs o fb => Try (f p) b hs o fb
  | Global p ns => Global (f p) ns
  | Name p i c => Name (f p) i c
  | BinOp p l o r => BinOp (f p) l o r
  | Compare p l os cs => Compare (f p) l os cs
  | Attribute p v a c => Attribute (f p) v a c
  | Subscript p v s c => Subscript (f p) v s c
  | Starred p v c => Starred (f p) v c
  | Call p fn az ks sa ka => Call (f p) fn az ks sa ka
  | Tuple p es c => Tuple (f p) es c
  | List p es c => List (f p) es c
  | alias p nm an => alias (f p) nm an
  | withitem p ce ov => withitem (f p) ce ov
  | ExceptHandler p t nm b => ExceptHandler (f p) t nm b
  | arg p a an => arg (f p) a an
  | Other c p ch => Other c (f p) ch
  end.

Definition set_lineno (l : Z) : node -> node :=
  with_pos (fun p => Pos l (col_offset p)).
Definition set_col_offset (c : Z) : node -> node :=
  with_pos (fun p => Pos (lineno p) c).

(** ** [leftmostname]

    Python's [None] is [None] here, a name [s] is [Some s]. *)
Fixpoint leftmostname (n : node) : option string :=
  match n with
  | Name _ id _ => Some id
  | BinOp _ left_ _ _ | Compare _ left_ _ _ => leftmostname left_
  | Attribute _ value _ _ | Subscript _ value _ _ | Starred _ value _
  | Expr _ value => leftmostname value
  | Call _ func _ _ _ _ => leftmostname func
  | _ => None
  end.

(** ** Exceptions, and the state of a transformer

    [self.contexts] is a Python list whose entry 0 is the root context passed
    to [ctxvisit] (a dict, of which only the key set is ever consulted) and
    whose later entries are sets.  An element is whatever [leftmostname] may
    return: a name or [None]. *)
Inductive exn : Type := TypeError | IndexError | AttributeError | NameError.

Inductive outcome (A : Type) : Type :=
| Return (a : A)
| Raise (e : exn).
Arguments Return {A} a.
Arguments Raise {A} e.

Abbreviation frame := (gset (option string)).
Abbreviation contexts := (list (gset (option string))).

(** A computation of the transformer: it reads and updates [self.contexts]
    and either returns or raises. *)
Definition M (A : Type) : Type := contexts -> outcome (A * contexts).

Definition ret {A} (a : A) : M A := fun cs => Return (a, cs).
Definition raise {A} (e : exn) : M A := fun _ => Raise e.
Definition bind {A B} (m : M A) (k : A -> M B) : M B :=
  fun cs => match m cs with
            | Return (a, cs') => k a cs'
            | Raise e => Raise e
            end.
Definition get : M contexts := fun cs => Return (cs, cs).
Definition put (cs : contexts) : M unit := fun _ => Return (tt, cs).

Notation "'let*' x ':=' c 'in' k" := (bind c (fun x => k))
  (at level 10, x name, c at level 100, k at level 200).
Notation "c >> k" := (bind c (fun _ => k))
  (at level 100, k at level 200, right associativity).

(** [for x in l: f(x)] *)
Fixpoint for_each {A} (l : list A) (f : A -> M unit) : M unit :=
  match l with
  | [] => ret tt
  | x :: rest => f x >> for_each rest f
  end.

(** [l[i]] on a Python list: a negative index counts from the end, an index
    out of range raises IndexError ([None] here). *)
Definition getitem {A} (l : list A) (i : Z) : option A :=
  let n := Z.of_nat (length l) in
  let j := if (i <? 0)%Z then (i + n)%Z else i in
  if ((0 <=? j) && (j <? n))%Z then nth_error l (Z.to_nat j) else None.

(** [l[i] = f(l[i])], the in-place update of entry [i]. *)
Definition update_item {A} (l : list A) (i : Z) (f : A -> A) : option (list A) :=
  let n := Z.of_nat (length l) in
  let j := if (i <? 0)%Z then (i + n)%Z else i in
  if ((0 <=? j) && (j <? n))%Z then Some (alter f (Z.to_nat j) l) else None.

(** [str.splitlines()], for strings of code points below 256: the line
    boundaries are LF, VT, FF, CR, CR LF, FS, GS, RS and NEL; the boundary is
    dropped, and no empty last line is produced. *)
Definition is_linebreak (c : ascii) : bool :=
  match nat_of_ascii c with
  | 10 | 11 | 12 | 13 | 28 | 29 | 30 | 133 => true
  | _ => false
  end.

Fixpoint splitlines_from (cur : string) (s : string) : list string :=
  match s with
  | EmptyString => if String.eqb cur EmptyString then [] else [cur]
  | String c rest =>
      if is_linebreak c then
        match nat_of_ascii c, rest with
        | 13, String c2 rest2 =>
            if Nat.eqb (nat_of_ascii c2) 10
            then cur :: splitlines_from EmptyString rest2
            else cur :: splitlines_from EmptyString rest
        | _, _ => cur :: splitlines_from EmptyString rest
        end
      else splitlines_from (cur +:+ String c EmptyString) rest
  end.

Definition splitlines (s : string) : list string :=
  splitlines_from EmptyString s.

(** ** Method calls

    [self.m(a1, ..., ak)] finds the function [m] on the class and calls it
    with the receiver in front of the [k] explicit arguments.  CPython matches
    these [k + 1] positional arguments against the parameter list of the
    [def] before the body runs, and raises TypeError when the numbers differ.
    In the body [self] is a name like any other: a local when it is a
    parameter, otherwise a global, and [xonsh/ast.py] defines no global
    [self], so evaluating it raises NameError. *)
Definition bound_call {A} (params : list string) (explicit : nat)
    (body : M A) : M A :=
  if negb (Nat.eqb (length params) (S explicit)) then raise TypeError
  else if existsb (String.eqb "self") params then body
  else raise NameError.

(** [self.contexts[i].<update>]: the set at index [i] is updated in place. *)
Definition update_frame (i : Z) (f : frame -> frame) : M unit :=
  let* cs := get in
  match update_item cs i f with
  | Some cs' => put cs'
  | None => raise IndexError
  end.

(** [self.contexts.append(set())] and [self.contexts.pop()]. *)
Definition push_frame : M unit :=
  let* cs := get in put (cs ++ [∅]).
Definition pop_frame : M unit :=
  let* cs := get in
  match cs with
  | [] => raise IndexError
  | _ => put (removelast cs)
  end.

(** ** The context helpers of [CtxAwareTransformer]

    [def ctxupdate(iterable)], [def ctxadd(value)] and [def ctxremove(value)]
    are declared in the class body with a single parameter each. *)
Definition ctxupdate (iterable : list (option string)) : M unit :=
  bound_call ["iterable"] 1
    (update_frame (-1) (fun ctx => ctx ∪ list_to_set iterable)).

Definition ctxadd (value : option string) : M unit :=
  bound_call ["value"] 1
    (update_frame (-1) (fun ctx => ctx ∪ {[ value ]})).

(** [for ctx in self.contexts[::-1]: if value in ctx: ctx.remove(value); break],
    on the reversed list. *)
Fixpoint remove_first (value : option string) (rev_cs : contexts) : contexts :=
  match rev_cs with
  | [] => []
  | ctx :: rest =>
      if bool_decide (value ∈ ctx) then (ctx ∖ {[ value ]}) :: rest
      else ctx :: remove_first value rest
  end.

Definition ctxremove (value : option string) : M unit :=
  bound_call ["value"] 1
    (let* cs := get in put (reverse (remove_first value (reverse cs)))).

(** The scope test of [visit_Expr], on the reversed list:
    [for ctx in self.contexts[::-1]: if lname in ctx: inscope = True; break]. *)
Fixpoint lookup_in (lname : option string) (rev_cs : contexts) : bool :=
  match rev_cs with
  | [] => false
  | ctx :: rest =>
      if bool_decide (lname ∈ ctx) then true else lookup_in lname rest
  end.

(** ** The collaborators

    [self.parser.parse] returns a module, of which only the statement list
    [body] is read, or raises SyntaxError.  [xonsh.tools.subproc_line] maps a
    source line to the line to parse.  Neither is defined in [xonsh/ast.py]:
    both are parameters of the development. *)
Inductive parsed : Type :=
| Program (body : list node)
| SyntaxError.

(** ** [NodeTransformer.generic_visit]

    Every field of the node is walked in [_fields] order; a child node, or
    each node of a child list, is replaced by what [visit] returns for it.
    The methods of [CtxAwareTransformer] return exactly one node, so the
    shape of every list is kept. *)
Section GenericVisit.
Variable visit : node -> M node.

Fixpoint visit_all (l : list node) : M (list node) :=
  match l with
  | [] => ret []
  | x :: rest =>
      let* x' := visit x in
      let* rest' := visit_all rest in
      ret (x' :: rest')
  end.

Definition visit_opt (o : option node) : M (option node) :=
  match o with
  | None => ret None
  | Some x => let* x' := visit x in ret (Some x')
  end.

Definition generic_visit (n : node) : M node :=
  match n with
  | Module p body =>
      let* body := visit_all body in ret (Module p body)
  | Expr p value =>
      let* value := visit value in ret (Expr p value)
  | Assign p targets value =>
      let* targets := visit_all targets in
      let* value := visit value in
      ret (Assign p targets value)
  | Delete p targets =>
      let* targets := visit_all targets in ret (Delete p targets)
  | Import p names =>
      let* names := visit_all names in ret (Import p names)
  | ImportFrom p module names level =>
      let* names := visit_all names in ret (ImportFrom p module names level)
  | With p items body =>
      let* items := visit_all items in
      let* body := visit_all body in
      ret (With p items body)
  | For p target iter body orelse =>
      let* target := visit target in
      let* iter := visit iter in
      let* body := visit_all body in
      let* orelse := visit_all orelse in
      ret (For p target iter body orelse)
  | FunctionDef p name args body decorator_list returns =>
      let* args := visit args in
      let* body := visit_all body in
      let* decorator_list := visit_all decorator_list in
      let* returns := visit_opt returns in
      ret (FunctionDef p name args body decorator_list returns)
  | ClassDef p name bases keywords starargs kwargs body decorator_list =>
      let* bases := visit_all bases in
      let* keywords := visit_all keywords in
      let* starargs := visit_opt starargs in
      let* kwargs := visit_opt kwargs in
      let* body := visit_all body in
      let* decorator_list := visit_all decorator_list in
      ret (ClassDef p name bases keywords starargs kwargs body decorator_list)
  | Try p body handlers orelse finalbody =>
      let* body := visit_all body in
      let* handlers := visit_all handlers in
      let* orelse := visit_all orelse in
      let* finalbody := visit_all finalbody in
      ret (Try p body handlers orelse finalbody)
  | Global _ _ => ret n
  | Name _ _ _ => ret n
  | BinOp p left_ op right_ =>
      let* left_ := visit left_ in
      let* right_ := visit right_ in
      ret (BinOp p left_ op right_)
  | Compare p left_ ops comparators =>
      let* left_ := visit left_ in
      let* comparators := visit_all comparators in
      ret (Compare p left_ ops comparators)
  | Attribute p value attr ctx =>
      let* value := visit value in ret (Attribute p value attr ctx)
  | Subscript p value slice ctx =>
      let* value := visit value in
      let* slice := visit slice in
      ret (Subscript p value slice ctx)
  | Starred p value ctx =>
      let* value := visit value in ret (Starred p value ctx)
  | Call p func args keywords starargs kwargs =>
      let* func := visit func in
      let* args := visit_all args in
      let* keywords := visit_all keywords in
      let* starargs := visit_opt starargs in
      let* kwargs := visit_opt kwargs in
      ret (Call p func args keywords starargs kwargs)
  | Tuple p elts ctx =>
      let* elts := visit_all elts in ret (Tuple p elts ctx)
  | List p elts ctx =>
      let* elts := visit_all elts in ret (List p elts ctx)
  | alias _ _ _ => ret n
  | withitem p context_expr optional_vars =>
      let* context_expr := visit context_expr in
      let* optional_vars := visit_opt optional_vars in
      ret (withitem p context_expr optional_vars)
  | ExceptHandler p type name body =>
      let* type := visit_opt type in
      let* body := visit_all body in
      ret (ExceptHandler p type name body)
  | arg p a annotation =>
      let* annotation := visit_opt annotation in ret (arg p a annotation)
  | Other cls p children =>
      let* children := visit_all children in ret (Other cls p children)
  end.
End GenericVisit.

(** [x.name], for the classes of the [ast] module that have the attribute. *)
Definition attr_name (n : node) : option (option string) :=
  match n with
  | ExceptHandler _ _ name _ => Some name
  | FunctionDef _ name _ _ _ _ | ClassDef _ name _ _ _ _ _ _
  | alias _ name _ => Some (Some name)
  | _ => None
  end.

(** ** [CtxAwareTransformer] *)
Section CtxAwareTransformer.
Variable parser : string -> parsed.
Variable subproc_line : string -> string.
(** [self.lines], set by [ctxvisit] and only read afterwards. *)
Variable lines : list string.

Definition visit_Expr (n : node) : M node :=
  let lname := leftmostname n in
  let* cs := get in
  let inscope := lookup_in lname (reverse cs) in
  if inscope then ret n
  else
    match getitem lines (lineno (node_pos n) - 1) with
    | None => raise IndexError
    | Some line =>
        let spline := subproc_line line in
        match parser spline with
        | Program body =>
            match getitem body 0 with
            | None => raise IndexError
            | Some newnode =>
                let newnode := set_lineno (lineno (node_pos n)) newnode in
                let newnode :=
                  set_col_offset (col_offset (node_pos n)) newnode in
                ret newnode
            end
        | SyntaxError => ret n
        end
    end.

(** The binding step shared by [visit_Assign] and [visit_For]. *)
Definition bind_target (targ : node) : M unit :=
  match targ with
  | Tuple _ elts _ | List _ elts _ => ctxupdate (map leftmostname elts)
  | _ => ctxadd (leftmostname targ)
  end.

Definition visit_Assign (n : node) : M node :=
  match n with
  | Assign _ targets _ => for_each targets bind_target >> ret n
  | _ => raise AttributeError
  end.

Definition bind_alias (name : node) : M unit :=
  match name with
  | alias _ nm asname =>
      match asname with
      | None => ctxadd (Some nm)
      | Some a => ctxadd (Some a)
      end
  | _ => raise AttributeError
  end.

Definition visit_Import (n : node) : M node :=
  match n with
  | Import _ names => for_each names bind_alias >> ret n
  | _ => raise AttributeError
  end.

Definition visit_ImportFrom (n : node) : M node :=
  match n with
  | ImportFrom _ _ names _ => for_each names bind_alias >> ret n
  | _ => raise AttributeError
  end.

(** The loop bodies of [visit_With], [visit_Delete] and [visit_Try]:
    [if item.optional_vars is not None: self.ctxadd(...)],
    [if isinstance(targ, Name): self.ctxremove(targ.id)] and
    [if handler.name is not None: self.ctxadd(handler.name)]. *)
Definition bind_withitem (item : node) : M unit :=
  match item with
  | withitem _ _ optional_vars =>
      match optional_vars with
      | Some v => ctxadd (leftmostname v)
      | None => ret tt
      end
  | _ => raise AttributeError
  end.

Definition unbind_target (targ : node) : M unit :=
  match targ with
  | Name _ id _ => ctxremove (Some id)
  | _ => ret tt
  end.

Definition bind_handler (handler : node) : M unit :=
  match attr_name handler with
  | Some (Some name) => ctxadd (Some name)
  | Some None => ret tt
  | None => raise AttributeError
  end.

Section Handlers.
(** [self.generic_visit], with the recursive [visit] inside. *)
Variable generic : node -> M node.

Definition visit_With (n : node) : M node :=
  match n with
  | With _ items _ => for_each items bind_withitem >> generic n
  | _ => raise AttributeError
  end.

Definition visit_For (n : node) : M node :=
  match n with
  | For _ targ _ _ _ => bind_target targ >> generic n
  | _ => raise AttributeError
  end.

Definition visit_FunctionDef (n : node) : M node :=
  match n with
  | FunctionDef _ name _ _ _ _ =>
      ctxadd (Some name) >>
      push_frame >>
      let* n' := generic n in
      pop_frame >>
      ret n'
  | _ => raise AttributeError
  end.

Definition visit_ClassDef (n : node) : M node :=
  match n with
  | ClassDef _ name _ _ _ _ _ _ =>
      ctxadd (Some name) >>
      push_frame >>
      let* n' := generic n in
      pop_frame >>
      ret n'
  | _ => raise AttributeError
  end.

Definition visit_Delete (n : node) : M node :=
  match n with
  | Delete _ targets => for_each targets unbind_target >> generic n
  | _ => raise AttributeError
  end.

Definition visit_Try (n : node) : M node :=
  match n with
  | Try _ _ handlers _ _ => for_each handlers bind_handler >> generic n
  | _ => raise AttributeError
  end.

Definition visit_Global (n : node) : M node :=
  match n with
  | Global _ names =>
      update_frame 1 (fun ctx => ctx ∪ list_to_set (Some <$> names)) >>
      generic n
  | _ => raise AttributeError
  end.
End Handlers.

(** [NodeTransformer.visit]: the method [visit_<class name>] when the
    transformer has one, [generic_visit] otherwise. *)
Fixpoint visit (n : node) : M node :=
  match n with
  | Expr _ _ => visit_Expr n
  | Assign _ _ _ => visit_Assign n
  | Import _ _ => visit_Import n
  | ImportFrom _ _ _ _ => visit_ImportFrom n
  | With _ _ _ => visit_With (generic_visit visit) n
  | For _ _ _ _ _ => visit_For (generic_visit visit) n
  | FunctionDef _ _ _ _ _ _ => visit_FunctionDef (generic_visit visit) n
  | ClassDef _ _ _ _ _ _ _ _ => visit_ClassDef (generic_visit visit) n
  | Delete _ _ => visit_Delete (generic_visit visit) n
  | Try _ _ _ _ _ => visit_Try (generic_visit visit) n
  | Global _ _ => visit_Global (generic_visit visit) n
  | _ => generic_visit visit n
  end.
End CtxAwareTransformer.

(** [ctxvisit(node, input, ctx)]: the final [del] only drops the two
    attributes of the transformer. *)
Definition ctxvisit (parser : string -> parsed) (subproc_line : string -> string)
    (n : node) (input : string) (ctx : frame) : outcome node :=
  let lines := splitlines input in
  match visit parser subproc_line lines n [ctx; ∅] with
  | Return (n', _) => Return n'
  | Raise e => Raise e
  end.

(** ** Auxiliary definitions for the proofs *)

(** The child nodes [generic_visit] walks, in the order it walks them. *)
Definition children (n : node) : list node :=
  match n with
  | Module _ body => body
  | Expr _ value => [value]
  | Assign _ targets value => targets ++ [value]
  | Delete _ targets => targets
  | Import _ names => names
  | ImportFrom _ _ names _ => names
  | With _ items body => items ++ body
  | For _ target iter body orelse => target :: iter :: body ++ orelse
  | FunctionDef _ _ args body decorator_list returns =>
      args :: body ++ decorator_list ++ option_list returns
  | ClassDef _ _ bases keywords starargs kwargs body decorator_list =>
      bases ++ keywords ++ option_list starargs ++ option_list kwargs
        ++ body ++ decorator_list
  | Try _ body handlers orelse finalbody =>
      body ++ handlers ++ orelse ++ finalbody
  | Global _ _ | Name _ _ _ | alias _ _ _ => []
  | BinOp _ left_ _ right_ => [left_; right_]
  | Compare _ left_ _ comparators => left_ :: comparators
  | Attribute _ value _ _ | Starred _ value _ => [value]
  | Subscript _ value slice _ => [value; slice]
  | Call _ func args keywords starargs kwargs =>
      func :: args ++ keywords ++ option_list starargs ++ option_list kwargs
  | Tuple _ elts _ | List _ elts _ => elts
  | withitem _ context_expr optional_vars =>
      context_expr :: option_list optional_vars
  | ExceptHandler _ type _ body => option_list type ++ body
  | arg _ _ annotation => option_list annotation
  | Other _ _ children => children
  end.

Definition Forall_all {A} (P : A -> Prop) (f : forall x, P x) :
    forall l, Forall P l :=
  fix go l :=
    match l with
    | [] => List.Forall_nil P
    | x :: rest => List.Forall_cons P x rest (f x) (go rest)
    end.

Definition has_value {A} (o : option A) : bool :=
  match o with Some _ => true | None => false end.

(** What the methods of the transformer read off a child of the node they
    handle: whether it is a [Name] ([visit_Delete]), whether it is a
    [withitem] with an [as] target ([visit_With]), and its [name] attribute
    ([visit_Try]). *)
Definition observed (n : node) : bool * option bool * option (option string) :=
  (match n with Name _ _ _ => true | _ => false end,
   match n with withitem _ _ ov => Some (has_value ov) | _ => None end,
   attr_name n).

(** The scope stack after any number of pops that keep [k] frames, followed
    by any pushes and bindings in the new frames. *)
Definition later_stack (k : nat) (pushed : contexts) (cs : contexts) : contexts :=
  take k cs ++ pushed.

(** The scope stack after [self.contexts[1].update(names)]. *)
Definition declare_global (names : list string) (cs : contexts) : contexts :=
  alter (fun ctx => ctx ∪ list_to_set (Some <$> names)) 1 cs.

(** A frame keeps its elements, and keeps [None] out when it was out; a
    scope stack grows when it keeps its depth and each frame grows. *)
Definition frame_grows (a b : frame) : Prop :=
  a ⊆ b /\ (None ∉ a -> None ∉ b).
Definition scope_grows (cs cs' : contexts) : Prop := Forall2 frame_grows cs cs'.

(** A visit of [n] that returns has let the scope stack grow. *)
Definition growing (parser : string -> parsed) (subproc_line : string -> string)
    (lines : list string) (n : node) : Prop :=
  forall cs r cs',
    visit parser subproc_line lines n cs = Return (r, cs') ->
    scope_grows cs cs'.

(** Visiting the result of a visit again, from the same scope stack, gives
    the same result and the same scope stack; and the result looks to the
    method of its parent as the node did before the visit. *)
Definition stable (parser : string -> parsed) (subproc_line : string -> string)
    (lines : list string) (n : node) : Prop :=
  forall cs r cs',
    visit parser subproc_line lines n cs = Return (r, cs') ->
    observed r = observed n /\
    visit parser subproc_line lines r cs = Return (r, cs').

(** ** Auxiliary definitions for the further properties *)

(** [node.__class__.__name__], the name [NodeTransformer.visit] builds the
    method name from. *)
Definition class_name (n : node) : string :=
  match n with
  | Module _ _ => "Module" | Expr _ _ => "Expr" | Assign _ _ _ => "Assign"
  | Delete _ _ => "Delete" | Import _ _ => "Import"
  | ImportFrom _ _ _ _ => "ImportFrom" | With _ _ _ => "With"
  | For _ _ _ _ _ => "For" | FunctionDef _ _ _ _ _ _ => "FunctionDef"
  | ClassDef _ _ _ _ _ _ _ _ => "ClassDef" | Try _ _ _ _ _ => "Try"
  | Global _ _ => "Global" | Name _ _ _ => "Name" | BinOp _ _ _ _ => "BinOp"
  | Compare _ _ _ _ => "Compare" | Attribute _ _ _ _ => "Attribute"
  | Subscript _ _ _ _ => "Subscript" | Starred _ _ _ => "Starred"
  | Call _ _ _ _ _ _ => "Call" | Tuple _ _ _ => "Tuple" | List _ _ _ => "List"
  | alias _ _ _ => "alias" | withitem _ _ _ => "withitem"
  | ExceptHandler _ _ _ _ => "ExceptHandler" | arg _ _ _ => "arg"
  | Other cls _ _ => cls
  end.

Definition is_Expr (n : node) : bool :=
  match n with Expr _ _ => true | _ => false end.

Definition is_Name (n : node) : bool :=
  match n with Name _ _ _ => true | _ => false end.

(** [b] stands where [a] stood: at the same position and, unless [a] is an
    expression statement, with the same class. *)
Definition kept (a b : node) : Prop :=
  node_pos b = node_pos a /\ (is_Expr a = false -> class_name b = class_name a).

(** [m] is [n] or lies somewhere below it. *)
Inductive inside : node -> node -> Prop :=
| inside_here n : inside n n
| inside_child n c m : c ∈ children n -> inside c m -> inside n m.

(** The classes whose method, or whose lack of one, sends the walk on into
    the children: [visit_Expr], [visit_Assign], [visit_Import] and
    [visit_ImportFrom] return without calling [generic_visit]. *)
Definition recursed (n : node) : bool :=
  match n with
  | Expr _ _ | Assign _ _ _ | Import _ _ | ImportFrom _ _ _ _ => false
  | _ => true
  end.

(** [m] is [n] or a node the walk started at [n] goes on to. *)
Inductive walked : node -> node -> Prop :=
| walked_here n : walked n n
| walked_child n c m :
    recursed n = true -> c ∈ children n -> walked c m -> walked n m.

(** The classes [CtxAwareTransformer] has a [visit_] method for. *)
Definition has_method (n : node) : bool :=
  match n with
  | Expr _ _ | Assign _ _ _ | Import _ _ | ImportFrom _ _ _ _ | With _ _ _
  | For _ _ _ _ _ | FunctionDef _ _ _ _ _ _ | ClassDef _ _ _ _ _ _ _ _
  | Delete _ _ | Try _ _ _ _ _ | Global _ _ => true
  | _ => false
  end.

Definition has_as_target (item : node) : bool :=
  match item with withitem _ _ (Some _) => true | _ => false end.

Definition has_handler_name (handler : node) : bool :=
  match attr_name handler with Some (Some _) => true | _ => false end.

(** The statements whose method reaches a call of [ctxadd], [ctxupdate] or
    [ctxremove]: every [for], [def] and [class]; an assignment or import
    with at least one target or name; a [with] with an [as] target; a [del]
    of a plain name; a [try] with a named handler. *)
Definition binds (n : node) : bool :=
  match n with
  | For _ _ _ _ _ | FunctionDef _ _ _ _ _ _ | ClassDef _ _ _ _ _ _ _ _ => true
  | Assign _ targets _ => negb (bool_decide (targets = []))
  | Import _ names | ImportFrom _ _ names _ => negb (bool_decide (names = []))
  | With _ items _ => existsb has_as_target items
  | Delete _ targets => existsb is_Name targets
  | Try _ _ handlers _ _ => existsb has_handler_name handlers
  | _ => false
  end.

(** Some visit of [n] returns. *)
Definition returns (parser : string -> parsed) (subproc_line : string -> string)
    (lines : list string) (n : node) : Prop :=
  exists cs r cs', visit parser subproc_line lines n cs = Return (r, cs').

(** [cs'] is [cs] after declaring some names that satisfy [G] global. *)
Definition declares (G : string -> Prop) (cs cs' : contexts) : Prop :=
  exists names, cs' = declare_global names cs /\ Forall G names.

(** [x] is declared by a [global] statement inside [n]. *)
Definition global_of (n : node) (x : string) : Prop :=
  exists p names, inside n (Global p names) /\ x ∈ names.

Definition declaring (parser : string -> parsed)
    (subproc_line : string -> string) (lines : list string)
    (G : string -> Prop) (n : node) : Prop :=
  forall cs r cs',
    visit parser subproc_line lines n cs = Return (r, cs') -> declares G cs cs'.

(** Every visit of [n] returns [n] and leaves the scope stack alone. *)
Definition fixed (parser : string -> parsed) (subproc_line : string -> string)
    (lines : list string) (n : node) : Prop :=
  forall cs, visit parser subproc_line lines n cs = Return (n, cs).

(** Every expression statement the walk reaches from [n] is in scope on
    [cs], or has a source line the parser rejects. *)
Definition settled (parser : string -> parsed) (subproc_line : string -> string)
    (lines : list string) (cs : contexts) (n : node) : Prop :=
  forall m p v, walked n m -> m = Expr p v ->
    lookup_in (leftmostname v) (reverse cs) = true \/
    exists line,
      getitem lines (lineno p - 1) = Some line /\
      parser (subproc_line line) = SyntaxError.

Definition unchanged (parser : string -> parsed)
    (subproc_line : string -> string) (lines : list string) (n : node) : Prop :=
  forall cs r cs', settled parser subproc_line lines cs n ->
    visit parser subproc_line lines n cs = Return (r, cs') -> r = n.

Definition is_withitem (n : node) : bool :=
  match n with withitem _ _ _ => true | _ => false end.

(** What a node the walk reaches needs for its own method to return: it is
    no binding statement; an expression statement has a source line whose
    parse is not an empty module; the items of a [with] are [withitem]
    nodes and the handlers of a [try] have a [name] attribute. *)
Definition passable (parser : string -> parsed) (subproc_line : string -> string)
    (lines : list string) (m : node) : Prop :=
  binds m = false /\
  match m with
  | Expr p _ =>
      exists line, getitem lines (lineno p - 1) = Some line /\
                   parser (subproc_line line) <> Program []
  | With _ items _ => Forall (fun i => is_withitem i = true) items
  | Try _ _ handlers _ _ => Forall (fun h => attr_name h <> None) handlers
  | _ => True
  end.

Definition passing (parser : string -> parsed) (subproc_line : string -> string)
    (lines : list string) (n : node) : Prop :=
  forall cs, 2 <= length cs ->
    (forall m, walked n m -> passable parser subproc_line lines m) ->
    exists r cs',
      visit parser subproc_line lines n cs = Return (r, cs') /\
      length cs' = length cs.

(** ** Sample inputs

    A stand-in for the two collaborators: the line is wrapped in [$[ ]], and
    the parser accepts exactly the lines of that form, answering with one
    expression statement that calls the subprocess helper. *)
Definition at_ (l c : Z) : pos := Pos l c.

Definition sample_subproc_line (line : string) : string :=
  "$[" +:+ line +:+ "]".

Definition sample_parser (s : string) : parsed :=
  if String.prefix "$[" s then
    Program [Expr (at_ 1 0)
               (Call (at_ 1 0) (Name (at_ 1 0) "__xonsh_subproc__" Load)
                  [Other "Str" (at_ 1 0) []] [] None None)]
  else SyntaxError.

(** A parser that rejects every line. *)
Definition failing_parser (s : string) : parsed := SyntaxError.

Definition newline : string := String (ascii_of_nat 10) EmptyString.

(** Scenario A: [foo = 1], [foo], [bar]. *)
Definition source_A : string := "foo = 1" +:+ newline +:+ "foo" +:+ newline +:+ "bar".
Definition tree_A : node :=
  Module (at_ 1 0)
    [Assign (at_ 1 0) [Name (at_ 1 0) "foo" Store] (Other "Num" (at_ 1 6) []);
     Expr (at_ 2 0) (Name (at_ 2 0) "foo" Load);
     Expr (at_ 3 0) (Name (at_ 3 0) "bar" Load)].

(** Scenario B: [ls -la], an expression statement subtracting two names. *)
Definition source_B : string := "ls -la".
Definition tree_B : node :=
  Module (at_ 1 0)
    [Expr (at_ 1 0)
       (BinOp (at_ 1 0) (Name (at_ 1 0) "ls" Load) "Sub"
          (Name (at_ 1 4) "la" Load))].

(** Scenario C: [def f():], with body [x = 1], [x], followed by [x]. *)
Definition source_C : string :=
  "def f():" +:+ newline +:+ "    x = 1" +:+ newline +:+ "    x" +:+ newline +:+ "x".
Definition tree_C : node :=
  Module (at_ 1 0)
    [FunctionDef (at_ 1 0) "f" (Other "arguments" (at_ 1 0) [])
       [Assign (at_ 2 4) [Name (at_ 2 4) "x" Store] (Other "Num" (at_ 2 8) []);
        Expr (at_ 3 4) (Name (at_ 3 4) "x" Load)]
       [] None;
     Expr (at_ 4 0) (Name (at_ 4 0) "x" Load)].

(** The same with [class f:] in place of [def f():]. *)
Definition source_C_class : string :=
  "class f:" +:+ newline +:+ "    x = 1" +:+ newline +:+ "    x" +:+ newline +:+ "x".
Definition tree_C_class : node :=
  Module (at_ 1 0)
    [ClassDef (at_ 1 0) "f" [] [] None None
       [Assign (at_ 2 4) [Name (at_ 2 4) "x" Store] (Other "Num" (at_ 2 8) []);
        Expr (at_ 3 4) (Name (at_ 3 4) "x" Load)]
       [];
     Expr (at_ 4 0) (Name (at_ 4 0) "x" Load)].

(** Scenario D: [del x], [x]. *)
Definition source_D : string := "del x" +:+ newline +:+ "x".
Definition tree_D : node :=
  Module (at_ 1 0)
    [Delete (at_ 1 0) [Name (at_ 1 4) "x" Del];
     Expr (at_ 2 0) (Name (at_ 2 0) "x" Load)].

(** [a, b = c], an assignment that unpacks into a tuple of targets. *)
Definition source_unpack : string := "a, b = c".
Definition tree_unpack : node :=
  Module (at_ 1 0)
    [Assign (at_ 1 0)
       [Tuple (at_ 1 0) [Name (at_ 1 0) "a" Store; Name (at_ 1 3) "b" Store] Store]
       (Name (at_ 1 7) "c" Load)].

(** [def f(a):] with body [a], a parameter used as a statement. *)
Definition source_param : string := "def f(a):" +:+ newline +:+ "    a".
Definition tree_param : node :=
  Module (at_ 1 0)
    [FunctionDef (at_ 1 0) "f"
       (Other "arguments" (at_ 1 0) [arg (at_ 1 6) "a" None])
       [Expr (at_ 2 4) (Name (at_ 2 4) "a" Load)]
       [] None].

(** [def f():] with body [global x], followed by [x]: a declaration inside
    a nested frame, and a use after that frame would have been popped. *)
Definition source_global_in_def : string :=
  "def f():" +:+ newline +:+ "    global x" +:+ newline +:+ "x".
Definition tree_global_in_def : node :=
  Module (at_ 1 0)
    [FunctionDef (at_ 1 0) "f" (Other "arguments" (at_ 1 0) [])
       [Global (at_ 2 4) ["x"]]
       [] None;
     Expr (at_ 3 0) (Name (at_ 3 0) "x" Load)].

(** [global x], [x], [y]. *)
Definition source_global : string :=
  "global x" +:+ newline +:+ "x" +:+ newline +:+ "y".
Definition tree_global : node :=
  Module (at_ 1 0)
    [Global (at_ 1 0) ["x"];
     Expr (at_ 2 0) (Name (at_ 2 0) "x" Load);
     Expr (at_ 3 0) (Name (at_ 3 0) "y" Load)].

(** The same tree after one run with the sample collaborators: [x] is kept,
    [y] is replaced by the subprocess call. *)
Definition tree_global_once : node :=
  Module (at_ 1 0)
    [Global (at_ 1 0) ["x"];
     Expr (at_ 2 0) (Name (at_ 2 0) "x" Load);
     Expr (at_ 3 0)
       (Call (at_ 1 0) (Name (at_ 1 0) "__xonsh_subproc__" Load)
          [Other "Str" (at_ 1 0) []] [] None None)].

(** [ls - la], the expression of Scenario B on its own. *)
Definition expr_B : node :=
  BinOp (at_ 1 0) (Name (at_ 1 0) "ls" Load) "Sub" (Name (at_ 1 4) "la" Load).

(** [global x] followed by [foo = 1]. *)
Definition source_late : string := "global x" +:+ newline +:+ "foo = 1".
Definition tree_late : node :=
  Module (at_ 1 0)
    [Global (at_ 1 0) ["x"];
     Assign (at_ 2 0) [Name (at_ 2 0) "foo" Store] (Other "Num" (at_ 2 6) [])].

(** * Properties *)

(** ** Running a computation *)

Lemma bind_inv {A B} (m : M A) (k : A -> M B) cs x :
  bind m k cs = Return x ->
  exists a cs1, m cs = Return (a, cs1) /\ k a cs1 = Return x.
Proof.
  unfold bind. destruct (m cs) as [[a cs1]|e]; [eauto | discriminate].
Qed.

Lemma bind_intro {A B} (m : M A) (k : A -> M B) cs a cs1 x :
  m cs = Return (a, cs1) -> k a cs1 = Return x -> bind m k cs = Return x.
Proof. unfold bind. intros ->. auto. Qed.

Lemma bind_raise {A B} (m : M A) (k : A -> M B) cs e :
  m cs = Raise e -> bind m k cs = Raise e.
Proof. unfold bind. by intros ->. Qed.

Lemma ret_inv {A} (a : A) cs x : ret a cs = Return x -> x = (a, cs).
Proof. unfold ret. congruence. Qed.

Lemma for_each_inv {A} (f : A -> M unit) (Q : A -> Prop) :
  (forall x cs u cs', f x cs = Return (u, cs') -> cs' = cs /\ Q x) ->
  forall l cs u cs',
    for_each l f cs = Return (u, cs') -> cs' = cs /\ Forall Q l.
Proof.
  intros Hf. induction l as [|x l IH]; simpl; intros cs u cs' H.
  - apply ret_inv in H. split; [congruence | constructor].
  - apply bind_inv in H as (u1 & cs1 & H1 & H2).
    apply Hf in H1 as [-> Hx]. apply IH in H2 as [-> Hl].
    split; [done | by constructor].
Qed.

Lemma for_each_intro {A} (f : A -> M unit) (Q : A -> Prop) :
  (forall x cs, Q x -> f x cs = Return (tt, cs)) ->
  forall l cs, Forall Q l -> for_each l f cs = Return (tt, cs).
Proof.
  intros Hf. induction l as [|x l IH]; simpl; intros cs Hl; [done |].
  inversion Hl; subst. eapply bind_intro; [by apply Hf | by apply IH].
Qed.

(** ** Python indexing *)

Lemma getitem_0 {A} (x : A) l : getitem (x :: l) 0 = Some x.
Proof.
  unfold getitem. cbn [length].
  replace (0 <? 0)%Z with false by reflexivity.
  replace (0 <=? 0)%Z with true by reflexivity.
  destruct (Z.ltb_spec 0 (Z.of_nat (S (length l)))); [reflexivity | lia].
Qed.

Lemma getitem_nil {A} i : getitem (@nil A) i = None.
Proof.
  unfold getitem. cbn [length].
  destruct (i <? 0)%Z eqn:Hi; [rewrite Z.add_0_r |].
  - destruct (Z.leb_spec 0 i); [| done].
    apply Z.ltb_lt in Hi. lia.
  - destruct (Z.leb_spec 0 i); [| done].
    destruct (Z.ltb_spec i (Z.of_nat 0)); [lia | done].
Qed.

Lemma update_item_1 {A} (l : list A) f :
  2 <= length l -> update_item l 1 f = Some (alter f 1 l).
Proof.
  intros Hl. unfold update_item.
  replace (1 <? 0)%Z with false by reflexivity.
  replace (0 <=? 1)%Z with true by reflexivity.
  destruct (Z.ltb_spec 1 (Z.of_nat (length l))); [reflexivity | lia].
Qed.

(** ** The scope test *)

Lemma lookup_in_true lname l :
  lookup_in lname l = true <-> exists ctx, ctx ∈ l /\ lname ∈ ctx.
Proof.
  induction l as [|c l IH]; simpl.
  - split; [discriminate | intros (ctx & Hin & _); by apply elem_of_nil in Hin].
  - destruct (bool_decide_reflect (lname ∈ c)) as [Hc|Hc].
    + split; [intros _; exists c; split; [left | done] | done].
    + rewrite IH. split.
      * intros (ctx & Hin & Hx). exists ctx. split; [by right | done].
      * intros (ctx & Hin & Hx). apply elem_of_cons in Hin as [-> | Hin];
          [done | eauto].
Qed.

Lemma lookup_in_rev_true lname cs :
  lookup_in lname (reverse cs) = true <->
  exists ctx, ctx ∈ cs /\ lname ∈ ctx.
Proof.
  rewrite lookup_in_true. split; intros (ctx & Hin & Hx); exists ctx;
    (split; [| done]); by apply elem_of_reverse.
Qed.

Lemma lookup_in_rev_false lname cs :
  lookup_in lname (reverse cs) = false <->
  forall ctx, ctx ∈ cs -> lname ∉ ctx.
Proof.
  rewrite <- not_true_iff_false, lookup_in_rev_true. split.
  - intros Hno ctx Hin Hx. apply Hno. eauto.
  - intros Hall (ctx & Hin & Hx). by apply (Hall ctx).
Qed.

(** ** The context helpers always fail

    Each of the three helpers is declared with one parameter and called with
    the receiver and one argument. *)
Lemma ctxadd_raises value cs : ctxadd value cs = Raise TypeError.
Proof. reflexivity. Qed.

Lemma ctxupdate_raises iterable cs : ctxupdate iterable cs = Raise TypeError.
Proof. reflexivity. Qed.

Lemma ctxremove_raises value cs : ctxremove value cs = Raise TypeError.
Proof. reflexivity. Qed.

Lemma bind_target_raises targ cs : bind_target targ cs = Raise TypeError.
Proof. destruct targ; reflexivity. Qed.

(** ** Positions *)

Lemma node_pos_with_pos f n : node_pos (with_pos f n) = f (node_pos n).
Proof. by destruct n. Qed.

Lemma set_position l c n :
  set_col_offset c (set_lineno l n) = with_pos (fun _ => Pos l c) n.
Proof. by destruct n. Qed.

(** ** [leftmostname] *)

(** C3.  [leftmostname] is a function of the node alone (it neither reads nor
    writes the state of the transformer).  It returns the identifier of a
    [Name]; it resolves the left operand of a [BinOp] or [Compare], the value
    of an [Attribute], [Subscript], [Starred] or [Expr], and the called
    function of a [Call]; it returns [None] for every other class. *)
Theorem leftmostname_by_variant :
  (forall p id ctx, leftmostname (Name p id ctx) = Some id) /\
  (forall p l op r, leftmostname (BinOp p l op r) = leftmostname l) /\
  (forall p l ops cs, leftmostname (Compare p l ops cs) = leftmostname l) /\
  (forall p v a ctx, leftmostname (Attribute p v a ctx) = leftmostname v) /\
  (forall p v s ctx, leftmostname (Subscript p v s ctx) = leftmostname v) /\
  (forall p v ctx, leftmostname (Starred p v ctx) = leftmostname v) /\
  (forall p v, leftmostname (Expr p v) = leftmostname v) /\
  (forall p f az ks sa ka, leftmostname (Call p f az ks sa ka) = leftmostname f) /\
  (forall p b, leftmostname (Module p b) = None) /\
  (forall p ts v, leftmostname (Assign p ts v) = None) /\
  (forall p ts, leftmostname (Delete p ts) = None) /\
  (forall p ns, leftmostname (Import p ns) = None) /\
  (forall p m ns l, leftmostname (ImportFrom p m ns l) = None) /\
  (forall p its b, leftmostname (With p its b) = None) /\
  (forall p t i b o, leftmostname (For p t i b o) = None) /\
  (forall p nm a b d r, leftmostname (FunctionDef p nm a b d r) = None) /\
  (forall p nm bs ks sa ka b d,
     leftmostname (ClassDef p nm bs ks sa ka b d) = None) /\
  (forall p b hs o fb, leftmostname (Try p b hs o fb) = None) /\
  (forall p ns, leftmostname (Global p ns) = None) /\
  (forall p es ctx, leftmostname (Tuple p es ctx) = None) /\
  (forall p es ctx, leftmostname (List p es ctx) = None) /\
  (forall p nm an, leftmostname (alias p nm an) = None) /\
  (forall p ce ov, leftmostname (withitem p ce ov) = None) /\
  (forall p t nm b, leftmostname (ExceptHandler p t nm b) = None) /\
  (forall p a an, leftmostname (arg p a an) = None) /\
  (forall cls p ch, leftmostname (Other cls p ch) = None).
Proof. repeat split. Qed.

(** ** [visit_Expr] *)

Section VisitExpr.
Variable parser : string -> parsed.
Variable subproc_line : string -> string.
Variable lines : list string.

Lemma visit_Expr_inscope n cs :
  lookup_in (leftmostname n) (reverse cs) = true ->
  visit_Expr parser subproc_line lines n cs = Return (n, cs).
Proof. intros Hin. unfold visit_Expr, bind, get. by rewrite Hin. Qed.

Lemma visit_Expr_parsed n cs line newnode rest :
  lookup_in (leftmostname n) (reverse cs) = false ->
  getitem lines (lineno (node_pos n) - 1) = Some line ->
  parser (subproc_line line) = Program (newnode :: rest) ->
  visit_Expr parser subproc_line lines n cs =
    Return (with_pos (fun _ => node_pos n) newnode, cs).
Proof.
  intros Hin Hl Hp. unfold visit_Expr, bind, get.
  rewrite Hin, Hl, Hp, getitem_0, set_position.
  by destruct (node_pos n).
Qed.

Lemma visit_Expr_rejected n cs line :
  getitem lines (lineno (node_pos n) - 1) = Some line ->
  parser (subproc_line line) = SyntaxError ->
  visit_Expr parser subproc_line lines n cs = Return (n, cs).
Proof.
  intros Hl Hp. unfold visit_Expr, bind, get.
  destruct (lookup_in _ _); [done |]. by rewrite Hl, Hp.
Qed.
End VisitExpr.

(** The scope test itself is as intended: a statement whose leftmost name is
    in some frame of the stack is returned as it is. *)
Lemma visit_Expr_bound_unchanged parser subproc_line lines p value cs ctx :
  ctx ∈ cs -> leftmostname (Expr p value) ∈ ctx ->
  visit parser subproc_line lines (Expr p value) cs = Return (Expr p value, cs).
Proof.
  intros Hctx Hin. cbn [visit]. apply visit_Expr_inscope.
  apply lookup_in_rev_true. eauto.
Qed.

(** [ctxvisit] returns what [visit] returns on the initial scope stack. *)
Lemma ctxvisit_intro parser subproc_line n input ctx n' cs' :
  visit parser subproc_line (splitlines input) n [ctx; ∅] = Return (n', cs') ->
  ctxvisit parser subproc_line n input ctx = Return n'.
Proof. unfold ctxvisit. by intros ->. Qed.

Lemma ctxvisit_inv parser subproc_line n input ctx n' :
  ctxvisit parser subproc_line n input ctx = Return n' ->
  exists cs',
    visit parser subproc_line (splitlines input) n [ctx; ∅] = Return (n', cs').
Proof.
  unfold ctxvisit.
  destruct (visit _ _ _ _ _) as [[r cs']|e]; [| discriminate].
  intros [= ->]. by exists cs'.
Qed.

(** C2.  An expression statement whose leftmost name ([None] when it has
    none) belongs to no frame of the scope stack, and whose converted source
    line parses, is replaced by the first statement of the parse result,
    which carries the line number and column offset of the original node;
    the scope stack is left as it was. *)
Theorem visit_Expr_unbound_replaced
    (parser : string -> parsed) (subproc_line : string -> string)
    (lines : list string) (p : pos) (value : node) (cs : contexts)
    (line : string) (newnode : node) (rest : list node) :
  (forall ctx, ctx ∈ cs -> leftmostname (Expr p value) ∉ ctx) ->
  getitem lines (lineno p - 1) = Some line ->
  parser (subproc_line line) = Program (newnode :: rest) ->
  visit parser subproc_line lines (Expr p value) cs =
    Return (with_pos (fun _ => p) newnode, cs) /\
  node_pos (with_pos (fun _ => p) newnode) = p.
Proof.
  intros Hout Hl Hp. split; [| apply node_pos_with_pos].
  apply lookup_in_rev_false in Hout.
  exact (visit_Expr_parsed parser subproc_line lines (Expr p value) cs
           line newnode rest Hout Hl Hp).
Qed.

Lemma visit_Expr_unbound_replaced_witness :
  visit sample_parser sample_subproc_line ["ls -la"]
    (Expr (at_ 1 0)
       (BinOp (at_ 1 0) (Name (at_ 1 0) "ls" Load) "Sub"
          (Name (at_ 1 4) "la" Load)))
    [∅; ∅] =
    Return
      (with_pos (fun _ => at_ 1 0)
         (Expr (at_ 1 0)
            (Call (at_ 1 0) (Name (at_ 1 0) "__xonsh_subproc__" Load)
               [Other "Str" (at_ 1 0) []] [] None None)),
       [∅; ∅]) /\
  node_pos
    (with_pos (fun _ => at_ 1 0)
       (Expr (at_ 1 0)
          (Call (at_ 1 0) (Name (at_ 1 0) "__xonsh_subproc__" Load)
             [Other "Str" (at_ 1 0) []] [] None None))) = at_ 1 0.
Proof.
  apply (visit_Expr_unbound_replaced sample_parser sample_subproc_line
           ["ls -la"] (at_ 1 0) _ [∅; ∅] "ls -la" _ []).
  - apply lookup_in_rev_false. vm_compute. reflexivity.
  - reflexivity.
  - reflexivity.
Defined.

(** C6.  When the parser raises SyntaxError on the converted line, [visit]
    returns the original expression statement and the scope stack as they
    were: a value, not an exception; at the entry point, [ctxvisit] on a
    module made of that statement returns the module. *)
Theorem visit_Expr_syntax_error_kept
    (parser : string -> parsed) (subproc_line : string -> string)
    (input : string) (p : pos) (value : node) (line : string) :
  getitem (splitlines input) (lineno p - 1) = Some line ->
  parser (subproc_line line) = SyntaxError ->
  (forall cs,
     visit parser subproc_line (splitlines input) (Expr p value) cs =
       Return (Expr p value, cs)) /\
  (forall q ctx,
     ctxvisit parser subproc_line (Module q [Expr p value]) input ctx =
       Return (Module q [Expr p value])).
Proof.
  intros Hl Hp.
  assert (Hv : forall cs,
             visit parser subproc_line (splitlines input) (Expr p value) cs =
               Return (Expr p value, cs)).
  { intros cs.
    exact (visit_Expr_rejected parser subproc_line (splitlines input)
             (Expr p value) cs line Hl Hp). }
  split; [exact Hv |].
  intros q ctx. apply ctxvisit_intro with (cs' := [ctx; ∅]).
  change (visit parser subproc_line (splitlines input) (Module q [Expr p value]))
    with (generic_visit (visit parser subproc_line (splitlines input))
            (Module q [Expr p value])).
  cbn [generic_visit visit_all].
  eapply bind_intro; [| reflexivity].
  eapply bind_intro; [apply Hv | reflexivity].
Qed.

Lemma visit_Expr_syntax_error_kept_witness :
  (forall cs,
     visit failing_parser sample_subproc_line (splitlines source_B)
       (Expr (at_ 1 0) (Name (at_ 1 0) "ls" Load)) cs =
       Return (Expr (at_ 1 0) (Name (at_ 1 0) "ls" Load), cs)) /\
  (forall q ctx,
     ctxvisit failing_parser sample_subproc_line
       (Module q [Expr (at_ 1 0) (Name (at_ 1 0) "ls" Load)]) source_B ctx =
       Return (Module q [Expr (at_ 1 0) (Name (at_ 1 0) "ls" Load)])).
Proof.
  apply (visit_Expr_syntax_error_kept failing_parser sample_subproc_line
           source_B (at_ 1 0) (Name (at_ 1 0) "ls" Load) "ls -la").
  - reflexivity.
  - reflexivity.
Defined.

(** ** Induction on syntax trees *)

Lemma Forall_option_list {A} (P : A -> Prop) (f : forall x, P x) (o : option A) :
  Forall P (option_list o).
Proof.
  destruct o; simpl; [constructor; [apply f | constructor] | constructor].
Defined.

(** A property holds of every node when it holds of a node as soon as it
    holds of the children [generic_visit] walks. *)
Lemma node_children_ind (P : node -> Prop)
    (step : forall n, Forall P (children n) -> P n) : forall n, P n.
Proof.
  fix IH 1. intros n. apply step.
  destruct n; simpl;
    repeat first
      [ apply List.Forall_nil
      | apply List.Forall_cons; [apply IH |]
      | apply Forall_app; split
      | apply (Forall_option_list P IH)
      | apply (Forall_all P IH) ].
Qed.

(** ** The loops of [visit_With], [visit_Delete] and [visit_Try]

    Each loop either raises or leaves the scope stack alone, and which of the
    two depends only on what it reads off the items. *)

Lemma bind_withitem_inv item cs u cs' :
  bind_withitem item cs = Return (u, cs') ->
  cs' = cs /\ (observed item).1.2 = Some false.
Proof.
  destruct item as [| | | | | | | | | | | | | | | | | | | | | |? ? [v|]| | |];
    try discriminate.
  intros H. apply ret_inv in H. by inversion H.
Qed.

Lemma bind_withitem_ok item cs :
  (observed item).1.2 = Some false -> bind_withitem item cs = Return (tt, cs).
Proof.
  destruct item as [| | | | | | | | | | | | | | | | | | | | | |? ? [v|]| | |];
    by cbn.
Qed.

Lemma unbind_target_inv targ cs u cs' :
  unbind_target targ cs = Return (u, cs') ->
  cs' = cs /\ (observed targ).1.1 = false.
Proof.
  destruct targ; try discriminate;
    intros H; apply ret_inv in H; by inversion H.
Qed.

Lemma unbind_target_ok targ cs :
  (observed targ).1.1 = false -> unbind_target targ cs = Return (tt, cs).
Proof. destruct targ; by cbn. Qed.

Lemma bind_handler_inv handler cs u cs' :
  bind_handler handler cs = Return (u, cs') ->
  cs' = cs /\ (observed handler).2 = Some None.
Proof.
  unfold bind_handler, observed. cbn [snd].
  destruct (attr_name handler) as [[name|]|]; try discriminate.
  intros H. apply ret_inv in H. by inversion H.
Qed.

Lemma bind_handler_ok handler cs :
  (observed handler).2 = Some None -> bind_handler handler cs = Return (tt, cs).
Proof. unfold bind_handler, observed. cbn [snd]. by intros ->. Qed.

Lemma Forall2_observed
    (Q : bool * option bool * option (option string) -> Prop) l l' :
  Forall2 (fun a b => observed b = observed a) l l' ->
  Forall (fun x => Q (observed x)) l -> Forall (fun x => Q (observed x)) l'.
Proof.
  induction 1 as [|a b l l' Hab _ IH]; intros Hl; [constructor |].
  inversion Hl; subst. constructor; [by rewrite Hab | by apply IH].
Qed.

(** A loop that succeeded on a list succeeds, with the same effect, on any
    list whose items look the same to it. *)
Lemma loop_observed (f : node -> M unit)
    (Q : bool * option bool * option (option string) -> Prop) :
  (forall x cs u cs', f x cs = Return (u, cs') -> cs' = cs /\ Q (observed x)) ->
  (forall x cs, Q (observed x) -> f x cs = Return (tt, cs)) ->
  forall l l' cs u cs',
    for_each l f cs = Return (u, cs') ->
    Forall2 (fun a b => observed b = observed a) l l' ->
    cs' = cs /\ for_each l' f cs = Return (tt, cs).
Proof.
  intros Hinv Hok l l' cs u cs' Hrun Hobs.
  apply (for_each_inv f (fun x => Q (observed x)) Hinv) in Hrun as [-> Hl].
  split; [done |].
  apply (for_each_intro f (fun x => Q (observed x)) Hok).
  by apply (Forall2_observed Q l l').
Qed.


Lemma bind_target_never targ cs u cs' :
  bind_target targ cs = Return (u, cs') -> cs' = cs /\ False.
Proof. by rewrite bind_target_raises. Qed.

Lemma bind_alias_never name cs u cs' :
  bind_alias name cs = Return (u, cs') -> cs' = cs /\ False.
Proof.
  destruct name as [| | | | | | | | | | | | | | | | | | | | |? ? [a|]| | | |];
    discriminate.
Qed.

Lemma update_frame_inv i f cs u cs' :
  update_frame i f cs = Return (u, cs') -> exists j, cs' = alter f j cs.
Proof.
  unfold update_frame, update_item, bind, get, put.
  destruct (_ && _); [| discriminate]. intros [= <-]. eauto.
Qed.

Lemma visit_Expr_state parser subproc_line lines n cs r cs' :
  visit_Expr parser subproc_line lines n cs = Return (r, cs') -> cs' = cs.
Proof.
  unfold visit_Expr, bind, get.
  destruct (lookup_in _ _); [by intros [= _ <-] |].
  destruct (getitem lines _); [| discriminate].
  destruct (parser _) as [body|]; [| by intros [= _ <-]].
  destruct (getitem body 0); [by intros [= _ <-] | discriminate].
Qed.

(** ** The scope stack only grows

    No successful visit removes a name from a frame, changes the depth of
    the stack, or puts [None] into a frame. *)

Lemma frame_grows_refl a : frame_grows a a.
Proof. by split. Qed.

Lemma frame_grows_trans a b c :
  frame_grows a b -> frame_grows b c -> frame_grows a c.
Proof. intros [H1 H2] [H3 H4]. split; [set_solver | auto]. Qed.

Lemma scope_grows_refl cs : scope_grows cs cs.
Proof. induction cs; constructor; [apply frame_grows_refl | done]. Qed.

Lemma scope_grows_trans cs1 cs2 cs3 :
  scope_grows cs1 cs2 -> scope_grows cs2 cs3 -> scope_grows cs1 cs3.
Proof.
  intros H. revert cs3. induction H as [|a b l l' Hab _ IH]; intros cs3 H3.
  - inversion H3; subst. constructor.
  - inversion H3; subst.
    constructor; [by eapply frame_grows_trans | by apply IH].
Qed.

Lemma scope_grows_alter (f : frame -> frame) j cs :
  (forall c, frame_grows c (f c)) -> scope_grows cs (alter f j cs).
Proof.
  intros Hf. revert j. induction cs as [|c cs IH]; intros j; [constructor |].
  destruct j; cbn.
  - constructor; [apply Hf | apply scope_grows_refl].
  - constructor; [apply frame_grows_refl | apply IH].
Qed.

Lemma frame_grows_names (ctx : frame) (names : list string) :
  frame_grows ctx (ctx ∪ list_to_set (Some <$> names)).
Proof.
  split; [set_solver |].
  intros Hno Hin. apply elem_of_union in Hin as [Hin | Hin]; [done |].
  apply elem_of_list_to_set, list_elem_of_fmap in Hin as (x & Hx & _).
  discriminate.
Qed.

Section Grows.
Variable parser : string -> parsed.
Variable subproc_line : string -> string.
Variable lines : list string.

Lemma growing_all l : Forall (growing parser subproc_line lines) l ->
  forall cs l' cs',
    visit_all (visit parser subproc_line lines) l cs = Return (l', cs') ->
    scope_grows cs cs'.
Proof.
  induction 1 as [|x l Hx _ IH]; simpl; intros cs l' cs' H.
  - apply ret_inv in H. injection H as _ <-. apply scope_grows_refl.
  - apply bind_inv in H as (x' & cs1 & H1 & H).
    apply bind_inv in H as (r' & cs2 & H2 & H).
    apply ret_inv in H. injection H as _ <-.
    eapply scope_grows_trans; [by eapply Hx | by eapply IH].
Qed.

Lemma growing_opt o :
  Forall (growing parser subproc_line lines) (option_list o) ->
  forall cs o' cs',
    visit_opt (visit parser subproc_line lines) o cs = Return (o', cs') ->
    scope_grows cs cs'.
Proof.
  destruct o as [x|]; simpl; intros Hs cs o' cs' H.
  - apply bind_inv in H as (x' & cs1 & H1 & H).
    apply ret_inv in H. injection H as _ <-.
    inversion Hs as [|? ? Hx _]; subst. by eapply Hx.
  - apply ret_inv in H. injection H as _ <-. apply scope_grows_refl.
Qed.

Ltac split_run H :=
  repeat lazymatch type of H with
  | bind _ _ _ = Return _ =>
      let a := fresh "a" in
      let cs1 := fresh "cs" in
      let H1 := fresh "Hrun" in
      apply bind_inv in H as (a & cs1 & H1 & H)
  | ret _ _ = Return _ => apply ret_inv in H; injection H as -> ->
  end.

Ltac grow_step :=
  match goal with
  | IH : growing _ _ _ ?x, H : visit _ _ _ ?x _ = Return _ |- _ =>
      apply IH in H
  | IH : Forall _ (option_list ?o), H : visit_opt _ ?o _ = Return _ |- _ =>
      apply (growing_opt _ IH) in H
  | IH : Forall _ ?l, H : visit_all _ ?l _ = Return _ |- _ =>
      apply (growing_all _ IH) in H
  | H : for_each _ bind_withitem _ = Return _ |- _ =>
      apply (for_each_inv _ _ bind_withitem_inv) in H as [-> _]
  | H : for_each _ unbind_target _ = Return _ |- _ =>
      apply (for_each_inv _ _ unbind_target_inv) in H as [-> _]
  | H : for_each _ bind_handler _ = Return _ |- _ =>
      apply (for_each_inv _ _ bind_handler_inv) in H as [-> _]
  | H : for_each _ bind_target _ = Return _ |- _ =>
      apply (for_each_inv _ _ bind_target_never) in H as [-> _]
  | H : for_each _ bind_alias _ = Return _ |- _ =>
      apply (for_each_inv _ _ bind_alias_never) in H as [-> _]
  | H : update_frame _ _ _ = Return _ |- _ =>
      apply update_frame_inv in H as [? ->]
  end.

Ltac chain :=
  repeat (eapply scope_grows_trans; [eassumption |]);
  first [ apply scope_grows_refl
        | eassumption
        | apply scope_grows_alter; intros c; apply frame_grows_names ].

Lemma visit_growing n : growing parser subproc_line lines n.
Proof.
  induction n as [n IH] using node_children_ind.
  destruct n; cbn [children] in IH;
    rewrite ?Forall_cons, ?Forall_app in IH.
  all: intros cs r cs' H.
  all: cbn [visit visit_Assign visit_Import visit_ImportFrom visit_With
            visit_For visit_FunctionDef visit_ClassDef visit_Delete
            visit_Try visit_Global generic_visit] in H.
  all: try discriminate.
  all: try (apply visit_Expr_state in H as ->; apply scope_grows_refl).
  all: split_run H.
  all: try match goal with
       | H : bind_target _ _ = Return _ |- _ =>
           rewrite bind_target_raises in H; discriminate
       end.
  all: destruct_and?; repeat grow_step.
  all: chain.
Qed.
End Grows.

(** A run never puts [None] into a frame: with frames of identifiers, a
    statement without a leftmost name is out of scope throughout. *)
Lemma visit_keeps_identifiers parser subproc_line lines n cs r cs' :
  visit parser subproc_line lines n cs = Return (r, cs') ->
  (forall ctx, ctx ∈ cs -> None ∉ ctx) ->
  forall ctx, ctx ∈ cs' -> None ∉ ctx.
Proof.
  intros Hrun. apply visit_growing in Hrun.
  induction Hrun as [|a b l l' [_ Hab] _ IH]; intros Hcs ctx Hin.
  - by apply elem_of_nil in Hin.
  - apply elem_of_cons in Hin as [-> | Hin].
    + apply Hab, Hcs. left.
    + apply IH; [| done]. intros c Hc. apply Hcs. by right.
Qed.

(** ** [visit_Global] *)

(** [visit_Global] on its own, on a scope stack of at least the two frames
    [ctxvisit] starts with: it adds every declared name to the frame
    at index 1 and changes nothing else.  A declared name is then found by
    the scope test on every later stack that still has that frame: after any
    pops down to two or more frames and under any frames pushed since, and
    after any further node has been visited. *)
Theorem visit_Global_binds_global_frame
    (parser : string -> parsed) (subproc_line : string -> string)
    (lines : list string) (p : pos) (names : list string) (cs : contexts) :
  2 <= length cs ->
  visit parser subproc_line lines (Global p names) cs =
    Return (Global p names, declare_global names cs) /\
  (forall x k pushed, x ∈ names -> 2 <= k ->
     lookup_in (Some x)
       (reverse (later_stack k pushed (declare_global names cs))) = true) /\
  (forall x n r cs', x ∈ names ->
     visit parser subproc_line lines n (declare_global names cs) =
       Return (r, cs') ->
     lookup_in (Some x) (reverse cs') = true).
Proof.
  intros Hlen.
  destruct cs as [|c0 [|c1 rest]]; simpl in Hlen; [lia | lia |].
  assert (Hx : forall x, x ∈ names ->
            Some x ∈ c1 ∪ list_to_set (C := frame) (Some <$> names)).
  { intros x Hx.
    apply elem_of_union_r, elem_of_list_to_set, list_elem_of_fmap.
    by exists x. }
  split; [| split].
  - cbn [visit]. unfold visit_Global, update_frame, bind, get, put.
    rewrite update_item_1 by (simpl; lia). reflexivity.
  - intros x k pushed Hin Hk. apply lookup_in_rev_true.
    destruct k as [|[|k]]; [lia | lia |].
    exists (c1 ∪ list_to_set (Some <$> names)). split; [| by apply Hx].
    unfold later_stack, declare_global. cbn. right. left.
  - intros x n r cs' Hin Hrun. apply lookup_in_rev_true.
    apply visit_growing in Hrun. unfold declare_global in Hrun. cbn in Hrun.
    inversion Hrun as [|? c0' ? l' _ Hrest]; subst.
    inversion Hrest as [|? c1' ? l'' [Hsub _] _]; subst.
    exists c1'. split; [right; left |]. apply Hsub. by apply Hx.
Qed.

Lemma visit_Global_binds_global_frame_witness :
  visit sample_parser sample_subproc_line [] (Global (at_ 2 4) ["x"]) [∅; ∅; ∅] =
    Return (Global (at_ 2 4) ["x"], declare_global ["x"] [∅; ∅; ∅]) /\
  (forall x k pushed, x ∈ ["x"] -> 2 <= k ->
     lookup_in (Some x)
       (reverse (later_stack k pushed (declare_global ["x"] [∅; ∅; ∅]))) = true) /\
  (forall x n r cs', x ∈ ["x"] ->
     visit sample_parser sample_subproc_line [] n
       (declare_global ["x"] [∅; ∅; ∅]) = Return (r, cs') ->
     lookup_in (Some x) (reverse cs') = true).
Proof.
  apply (visit_Global_binds_global_frame sample_parser sample_subproc_line
           [] (at_ 2 4) ["x"] [∅; ∅; ∅]).
  simpl. lia.
Defined.

(** With no [Global], [def] or binding statement in the way, the scope test
    and the reparse behave as intended: Scenario B, and [global x] followed
    by a use of [x] and of an unknown [y]. *)
Example scenario_B_bound :
  ctxvisit sample_parser sample_subproc_line tree_B source_B {[ Some "ls" ]} =
    Return tree_B.
Proof. vm_compute. reflexivity. Qed.

Example scenario_global :
  ctxvisit sample_parser sample_subproc_line tree_global source_global ∅ =
    Return tree_global_once.
Proof. vm_compute. reflexivity. Qed.

(** ** The binding statements

    Every method that binds or unbinds a name goes through [ctxadd],
    [ctxupdate] or [ctxremove], and stops there with TypeError. *)

Lemma visit_Assign_raises parser subproc_line lines p targ targets value cs :
  visit parser subproc_line lines (Assign p (targ :: targets) value) cs =
    Raise TypeError.
Proof.
  cbn [visit]. unfold visit_Assign. cbn [for_each].
  apply bind_raise, bind_raise, bind_target_raises.
Qed.

Lemma visit_FunctionDef_raises parser subproc_line lines p name args body ds r cs :
  visit parser subproc_line lines (FunctionDef p name args body ds r) cs =
    Raise TypeError.
Proof. reflexivity. Qed.

Lemma visit_ClassDef_raises parser subproc_line lines p name bs ks sa ka body ds cs :
  visit parser subproc_line lines (ClassDef p name bs ks sa ka body ds) cs =
    Raise TypeError.
Proof. reflexivity. Qed.

Lemma visit_For_raises parser subproc_line lines p targ iter body orelse cs :
  visit parser subproc_line lines (For p targ iter body orelse) cs =
    Raise TypeError.
Proof.
  cbn [visit]. unfold visit_For. apply bind_raise, bind_target_raises.
Qed.

Lemma visit_Delete_Name_raises parser subproc_line lines p q id ctx targets cs :
  visit parser subproc_line lines (Delete p (Name q id ctx :: targets)) cs =
    Raise TypeError.
Proof. reflexivity. Qed.

(** A [del] of something that is not a plain name, here [del a[0]], is
    skipped by the loop of [visit_Delete]. *)
Example delete_subscript_skipped :
  ctxvisit sample_parser sample_subproc_line
    (Module (at_ 1 0)
       [Delete (at_ 1 0)
          [Subscript (at_ 1 4) (Name (at_ 1 4) "a" Load)
             (Other "Index" (at_ 1 6) [Other "Num" (at_ 1 6) []]) Del]])
    "del a[0]" {[ Some "a" ]} =
  Return
    (Module (at_ 1 0)
       [Delete (at_ 1 0)
          [Subscript (at_ 1 4) (Name (at_ 1 4) "a" Load)
             (Other "Index" (at_ 1 6) [Other "Num" (at_ 1 6) []]) Del]]).
Proof. vm_compute. reflexivity. Qed.

(** A module raises what its first statement raises. *)
Lemma ctxvisit_first_raises parser subproc_line q stmt rest input ctx e :
  (forall cs, visit parser subproc_line (splitlines input) stmt cs = Raise e) ->
  ctxvisit parser subproc_line (Module q (stmt :: rest)) input ctx = Raise e.
Proof.
  intros Hs. unfold ctxvisit.
  change (visit parser subproc_line (splitlines input) (Module q (stmt :: rest)))
    with (generic_visit (visit parser subproc_line (splitlines input))
            (Module q (stmt :: rest))).
  cbn [generic_visit visit_all].
  erewrite bind_raise; [reflexivity |].
  apply bind_raise, Hs.
Qed.

(** C1.  Scenario A, [foo = 1] followed by [foo] and [bar]: the run stops
    with TypeError at the assignment, for every parser and root context, so
    the statement [foo] is never reached, let alone left unchanged. *)
Theorem scenario_A_raises
    (parser : string -> parsed) (subproc_line : string -> string) (ctx : frame) :
  ctxvisit parser subproc_line tree_A source_A ctx = Raise TypeError.
Proof. apply ctxvisit_first_raises. intros cs. apply visit_Assign_raises. Qed.

(** C4.  Scenario C, with a function and with a class: the run stops with
    TypeError at the definition, before a frame is pushed or popped, so the
    statement [x] after the definition is never visited. *)
Theorem scenario_C_raises
    (parser : string -> parsed) (subproc_line : string -> string) (ctx : frame) :
  ctxvisit parser subproc_line tree_C source_C ctx = Raise TypeError /\
  ctxvisit parser subproc_line tree_C_class source_C_class ctx = Raise TypeError.
Proof.
  split; apply ctxvisit_first_raises; intros cs;
    [apply visit_FunctionDef_raises | apply visit_ClassDef_raises].
Qed.

(** C5.  [def f():] with body [global x], followed by [x]: the run stops
    with TypeError at the definition, before a frame is pushed, so the
    [global] statement inside the function is never visited, nothing is added
    to the frame at index 1, and the later [x] is never looked up.  No run
    reaches a [global] statement below a [def] or [class]. *)
Theorem global_in_def_raises
    (parser : string -> parsed) (subproc_line : string -> string) (ctx : frame) :
  ctxvisit parser subproc_line tree_global_in_def source_global_in_def ctx =
    Raise TypeError.
Proof.
  apply ctxvisit_first_raises. intros cs. apply visit_FunctionDef_raises.
Qed.

(** C7.  Scenario D, [del x] followed by [x], with [x] never bound: the run
    stops with TypeError at the [del] statement. *)
Theorem scenario_D_raises
    (parser : string -> parsed) (subproc_line : string -> string) (ctx : frame) :
  ctxvisit parser subproc_line tree_D source_D ctx = Raise TypeError.
Proof.
  apply ctxvisit_first_raises. intros cs. apply visit_Delete_Name_raises.
Qed.

(** C8.  [a, b = c]: the run stops with TypeError at the assignment; nothing
    is bound and the value is not walked. *)
Theorem unpack_assignment_raises
    (parser : string -> parsed) (subproc_line : string -> string) (ctx : frame) :
  ctxvisit parser subproc_line tree_unpack source_unpack ctx = Raise TypeError.
Proof. apply ctxvisit_first_raises. intros cs. apply visit_Assign_raises. Qed.

(** C10.  [def f(a):] with body [a]: the run stops with TypeError at the
    definition, so the statement [a] in the body is never visited. *)
Theorem parameter_statement_raises
    (parser : string -> parsed) (subproc_line : string -> string) (ctx : frame) :
  ctxvisit parser subproc_line tree_param source_param ctx = Raise TypeError.
Proof.
  apply ctxvisit_first_raises. intros cs. apply visit_FunctionDef_raises.
Qed.

(** ** A second run changes nothing *)

Section Idempotence.
Variable parser : string -> parsed.
Variable subproc_line : string -> string.
Variable lines : list string.

(** The contract the source states where it takes [newnode.body[0]]:
    "take the first (and only) Expr". *)
Hypothesis parser_Expr : forall s newnode rest,
  parser s = Program (newnode :: rest) -> exists p v, newnode = Expr p v.

Lemma stable_all l : Forall (stable parser subproc_line lines) l ->
  forall cs l' cs',
    visit_all (visit parser subproc_line lines) l cs = Return (l', cs') ->
    Forall2 (fun a b => observed b = observed a) l l' /\
    visit_all (visit parser subproc_line lines) l' cs = Return (l', cs').
Proof.
  induction 1 as [|x l Hx Hl IH]; simpl; intros cs l' cs' H.
  - apply ret_inv in H. inversion H; subst. split; [constructor | done].
  - apply bind_inv in H as (x' & cs1 & H1 & H).
    apply bind_inv in H as (r' & cs2 & H2 & H).
    apply ret_inv in H. inversion H; subst.
    apply Hx in H1 as [Ho H1]. apply IH in H2 as [Hos H2].
    split; [by constructor |].
    simpl. eapply bind_intro; [eassumption |].
    eapply bind_intro; [eassumption | done].
Qed.

Lemma stable_opt o :
  Forall (stable parser subproc_line lines) (option_list o) ->
  forall cs o' cs',
    visit_opt (visit parser subproc_line lines) o cs = Return (o', cs') ->
    has_value o' = has_value o /\
    visit_opt (visit parser subproc_line lines) o' cs = Return (o', cs').
Proof.
  destruct o as [x|]; simpl; intros Hs cs o' cs' H.
  - apply bind_inv in H as (x' & cs1 & H1 & H).
    apply ret_inv in H. inversion H; subst.
    inversion Hs as [|? ? Hx _]; subst. apply Hx in H1 as [_ H1].
    split; [done |]. simpl. eapply bind_intro; [eassumption | done].
  - apply ret_inv in H. inversion H; subst. done.
Qed.

Lemma stable_Expr p v : stable parser subproc_line lines (Expr p v).
Proof.
  intros cs r cs' H. cbn [visit] in H.
  destruct (lookup_in (leftmostname (Expr p v)) (reverse cs)) eqn:Hin.
  - rewrite visit_Expr_inscope in H by done. injection H as <- <-.
    split; [done |]. cbn [visit]. by apply visit_Expr_inscope.
  - destruct (getitem lines (lineno p - 1)) as [line|] eqn:Hl;
      [| unfold visit_Expr, bind, get in H; rewrite Hin in H;
         cbn [node_pos] in H; rewrite Hl in H; discriminate].
    destruct (parser (subproc_line line)) as [[|newnode rest]|] eqn:Hp.
    + unfold visit_Expr, bind, get in H. rewrite Hin in H.
      cbn [node_pos] in H. rewrite Hl, Hp, getitem_nil in H. discriminate.
    + rewrite (visit_Expr_parsed parser subproc_line lines (Expr p v)
                 cs line newnode rest Hin Hl Hp) in H.
      destruct (parser_Expr _ _ _ Hp) as (q & w & ->).
      cbn in H. injection H as <- <-. split; [done |]. cbn [visit].
      destruct (lookup_in (leftmostname (Expr p w)) (reverse cs)) eqn:Hin'.
      * by apply visit_Expr_inscope.
      * by rewrite (visit_Expr_parsed parser subproc_line lines (Expr p w)
                      cs line (Expr q w) rest Hin' Hl Hp).
    + rewrite (visit_Expr_rejected parser subproc_line lines (Expr p v)
                 cs line Hl Hp) in H.
      injection H as <- <-. split; [done |].
      cbn [visit]. by apply (visit_Expr_rejected _ _ _ _ _ line).
Qed.

Ltac inv_run H :=
  repeat lazymatch type of H with
  | bind _ _ _ = Return _ =>
      let a := fresh "a" in
      let cs1 := fresh "cs" in
      let H1 := fresh "Hrun" in
      apply bind_inv in H as (a & cs1 & H1 & H)
  | ret _ _ = Return _ => apply ret_inv in H; inversion H; subst; clear H
  end.

Ltac use_IH :=
  repeat match goal with
  | IH : stable _ _ _ ?x, H : visit _ _ _ ?x _ = Return _ |- _ =>
      apply IH in H; destruct H as [? H]
  | IH : Forall _ (option_list ?o), H : visit_opt _ ?o _ = Return _ |- _ =>
      apply (stable_opt _ IH) in H; destruct H as [? H]
  | IH : Forall _ ?l, H : visit_all _ ?l _ = Return _ |- _ =>
      apply (stable_all _ IH) in H; destruct H as [? H]
  end.

Ltac use_loop :=
  match goal with
  | H : for_each ?l bind_withitem _ = Return _,
    Ho : Forall2 _ ?l _ |- _ =>
      eapply (loop_observed bind_withitem (fun o => o.1.2 = Some false)
                bind_withitem_inv bind_withitem_ok) in H as [-> H];
        [| exact Ho]
  | H : for_each ?l unbind_target _ = Return _,
    Ho : Forall2 _ ?l _ |- _ =>
      eapply (loop_observed unbind_target (fun o => o.1.1 = false)
                unbind_target_inv unbind_target_ok) in H as [-> H];
        [| exact Ho]
  | H : for_each ?l bind_handler _ = Return _,
    Ho : Forall2 _ ?l _ |- _ =>
      eapply (loop_observed bind_handler (fun o => o.2 = Some None)
                bind_handler_inv bind_handler_ok) in H as [-> H];
        [| exact Ho]
  end.

Ltac rerun :=
  repeat (eapply bind_intro; [eassumption |]); reflexivity.

Lemma visit_stable n : stable parser subproc_line lines n.
Proof.
  induction n as [n IH] using node_children_ind.
  destruct n; cbn [children] in IH;
    rewrite ?Forall_cons, ?Forall_app in IH; try apply stable_Expr.
  all: intros cs r cs' H.
  all: cbn [visit visit_Assign visit_Import visit_ImportFrom visit_With
            visit_For visit_FunctionDef visit_ClassDef visit_Delete
            visit_Try visit_Global generic_visit] in H.
  all: try discriminate.
  all: inv_run H.
  all: try match goal with
       | H : bind_target _ _ = Return _ |- _ =>
           rewrite bind_target_raises in H; discriminate
       | H : ctxadd _ _ = Return _ |- _ =>
           rewrite ctxadd_raises in H; discriminate
       end.
  all: destruct_and?; use_IH; try use_loop.
  all: split; [first [reflexivity | unfold observed; cbn; congruence] |].
  all: cbn [visit visit_Assign visit_Import visit_ImportFrom visit_With
            visit_For visit_FunctionDef visit_ClassDef visit_Delete
            visit_Try visit_Global generic_visit].
  all: rerun.
Qed.
End Idempotence.

Lemma sample_parser_Expr s newnode rest :
  sample_parser s = Program (newnode :: rest) ->
  exists p v, newnode = Expr p v.
Proof.
  unfold sample_parser. destruct (String.prefix _ _); [| discriminate].
  intros [= <- _]. eauto.
Qed.

(** C9.  With a parser whose answer starts with an expression statement, as
    the source expects of it, a run of [ctxvisit] on the tree a first run
    returned, with the same source text and the same root context, returns
    that tree again: no statement is changed by the second run. *)
Theorem ctxvisit_idempotent
    (parser : string -> parsed) (subproc_line : string -> string) :
  (forall s newnode rest,
     parser s = Program (newnode :: rest) -> exists p v, newnode = Expr p v) ->
  forall (n : node) (input : string) (ctx : frame) (n' : node),
    ctxvisit parser subproc_line n input ctx = Return n' ->
    ctxvisit parser subproc_line n' input ctx = Return n'.
Proof.
  intros Hparser n input ctx n' Hrun.
  apply ctxvisit_inv in Hrun as [cs' Hrun].
  apply (visit_stable parser subproc_line (splitlines input) Hparser) in Hrun
    as [_ Hrun].
  by apply ctxvisit_intro with (cs' := cs').
Qed.

Lemma ctxvisit_idempotent_witness :
  ctxvisit sample_parser sample_subproc_line tree_global_once source_global ∅ =
    Return tree_global_once.
Proof.
  apply (ctxvisit_idempotent sample_parser sample_subproc_line
           sample_parser_Expr tree_global source_global ∅ tree_global_once).
  vm_compute. reflexivity.
Defined.

(** * Further properties *)

Ltac run_inv H :=
  repeat lazymatch type of H with
  | bind _ _ _ = Return _ =>
      let a := fresh "a" in
      let cs1 := fresh "cs" in
      let H1 := fresh "Hrun" in
      apply bind_inv in H as (a & cs1 & H1 & H)
  | ret _ _ = Return _ => apply ret_inv in H; injection H as -> ->
  end.

Ltac open_visit H :=
  cbn [visit visit_Assign visit_Import visit_ImportFrom visit_With
       visit_For visit_FunctionDef visit_ClassDef visit_Delete
       visit_Try visit_Global generic_visit] in H.

Ltac no_bind_target :=
  try match goal with
      | H : bind_target _ _ = Return _ |- _ =>
          rewrite bind_target_raises in H; discriminate
      end.

(** ** Statements stay where they are *)

Lemma visit_Expr_result parser subproc_line lines n cs r cs' :
  visit_Expr parser subproc_line lines n cs = Return (r, cs') ->
  cs' = cs /\
  (r = n \/ exists newnode, r = with_pos (fun _ => node_pos n) newnode).
Proof.
  unfold visit_Expr, bind, get.
  destruct (lookup_in _ _); [intros [= <- <-]; auto |].
  destruct (getitem lines _); [| discriminate].
  destruct (parser _) as [body|]; [| intros [= <- <-]; auto].
  destruct (getitem body 0) as [newnode|]; [| discriminate].
  intros [= <- <-]. split; [done |]. right. exists newnode.
  rewrite set_position. by destruct (node_pos n).
Qed.

Lemma visit_kept parser subproc_line lines n cs r cs' :
  visit parser subproc_line lines n cs = Return (r, cs') -> kept n r.
Proof.
  intros H. destruct n; open_visit H; try discriminate.
  2: { apply visit_Expr_result in H as [_ [-> | [nn ->]]]; split; try done.
       by rewrite node_pos_with_pos. }
  all: run_inv H; by split.
Qed.

Lemma visit_all_kept parser subproc_line lines l cs l' cs' :
  visit_all (visit parser subproc_line lines) l cs = Return (l', cs') ->
  Forall2 kept l l'.
Proof.
  revert cs l'. induction l as [|x l IH]; simpl; intros cs l' H.
  - apply ret_inv in H. injection H as -> _. constructor.
  - run_inv H. constructor; [by eapply visit_kept | by eapply IH].
Qed.

(** X1.  A run on a module returns a module with the same number of
    statements; each statement of the result has the line number and column
    offset of the statement it stands for and, unless that one is an
    expression statement, its class: the pass adds, drops and moves
    nothing. *)
Theorem ctxvisit_keeps_statements
    (parser : string -> parsed) (subproc_line : string -> string)
    (q : pos) (body : list node) (input : string) (ctx : frame) (r : node) :
  ctxvisit parser subproc_line (Module q body) input ctx = Return r ->
  exists body',
    r = Module q body' /\ length body' = length body /\
    Forall2 kept body body'.
Proof.
  intros H. apply ctxvisit_inv in H as [cs' H]. open_visit H. run_inv H.
  apply visit_all_kept in Hrun. eexists. split; [done |].
  split; [| done]. symmetry. by eapply Forall2_length.
Qed.

Lemma ctxvisit_keeps_statements_witness :
  exists body',
    tree_global_once = Module (at_ 1 0) body' /\ length body' = 3 /\
    Forall2 kept
      [Global (at_ 1 0) ["x"];
       Expr (at_ 2 0) (Name (at_ 2 0) "x" Load);
       Expr (at_ 3 0) (Name (at_ 3 0) "y" Load)]
      body'.
Proof.
  apply (ctxvisit_keeps_statements sample_parser sample_subproc_line
           (at_ 1 0)
           [Global (at_ 1 0) ["x"];
            Expr (at_ 2 0) (Name (at_ 2 0) "x" Load);
            Expr (at_ 3 0) (Name (at_ 3 0) "y" Load)]
           source_global ∅ tree_global_once).
  vm_compute. reflexivity.
Defined.

(** ** What [visit_Expr] raises, and which line it reads *)

(** X2.  Visiting an expression statement raises exactly when the statement
    is out of scope and either [self.lines[node.lineno - 1]] is out of range
    or the parser returns a module with an empty body; the exception is then
    IndexError, which [except SyntaxError] does not catch. *)
Theorem visit_Expr_raises_iff
    (parser : string -> parsed) (subproc_line : string -> string)
    (lines : list string) (p : pos) (value : node) (cs : contexts) (e : exn) :
  visit parser subproc_line lines (Expr p value) cs = Raise e <->
  e = IndexError /\
  lookup_in (leftmostname value) (reverse cs) = false /\
  (getitem lines (lineno p - 1) = None \/
   exists line, getitem lines (lineno p - 1) = Some line /\
                parser (subproc_line line) = Program []).
Proof.
  cbn [visit]. unfold visit_Expr, bind, get. cbn [node_pos leftmostname].
  destruct (lookup_in _ _).
  { split; [discriminate | by intros (_ & ? & _)]. }
  destruct (getitem lines _) as [line|] eqn:Hl.
  2: { split; [intros [= <-]; auto | by intros [-> _]]. }
  destruct (parser _) as [[|newnode rest]|] eqn:Hp.
  - rewrite getitem_nil. split; [intros [= <-] | by intros [-> _]].
    split; [done |]. split; [done |]. right. by exists line.
  - rewrite getitem_0. split; [discriminate |].
    intros (_ & _ & [? | (l & [= <-] & Hp')]); [done | congruence].
  - split; [discriminate |].
    intros (_ & _ & [? | (l & [= <-] & Hp')]); [done | congruence].
Qed.

Lemma nth_error_lookup {A} (l : list A) i : nth_error l i = l !! i.
Proof. revert i. induction l; destruct i; simpl; auto. Qed.

Lemma getitem_from_end {A} (l : list A) (i : Z) :
  (- Z.of_nat (length l) <= i < 0)%Z ->
  getitem l i = l !! Z.to_nat (Z.of_nat (length l) + i).
Proof.
  intros Hi. unfold getitem.
  destruct (Z.ltb_spec i 0); [| lia].
  destruct (Z.leb_spec 0 (i + Z.of_nat (length l))); [| lia].
  destruct (Z.ltb_spec (i + Z.of_nat (length l)) (Z.of_nat (length l)));
    [| lia].
  cbn. rewrite nth_error_lookup. f_equal. lia.
Qed.

Lemma getitem_out_of_range {A} (l : list A) (i : Z) :
  (i < - Z.of_nat (length l) \/ Z.of_nat (length l) <= i)%Z ->
  getitem l i = None.
Proof.
  intros Hi. unfold getitem.
  destruct (Z.ltb_spec i 0).
  - destruct (Z.leb_spec 0 (i + Z.of_nat (length l))); [| done].
    destruct (Z.ltb_spec (i + Z.of_nat (length l)) (Z.of_nat (length l)));
      [lia | done].
  - destruct (Z.leb_spec 0 i); [| done].
    destruct (Z.ltb_spec i (Z.of_nat (length l))); [lia | done].
Qed.

(** X3.  A line number that is zero or negative, down to one minus the
    number of lines, does not fail: the index [lineno - 1] is negative and
    counts from the end of [self.lines], so an out-of-scope statement with
    line number 0 is replaced by the parse of the last line of the input. *)
Theorem visit_Expr_line_from_end
    (parser : string -> parsed) (subproc_line : string -> string)
    (lines : list string) (p : pos) (value : node) (cs : contexts)
    (line : string) (newnode : node) (rest : list node) :
  (- Z.of_nat (length lines) < lineno p <= 0)%Z ->
  lines !! Z.to_nat (Z.of_nat (length lines) + lineno p - 1) = Some line ->
  lookup_in (leftmostname value) (reverse cs) = false ->
  parser (subproc_line line) = Program (newnode :: rest) ->
  visit parser subproc_line lines (Expr p value) cs =
    Return (with_pos (fun _ => p) newnode, cs).
Proof.
  intros Hp Hl Hout Hparse.
  apply (visit_Expr_parsed parser subproc_line lines (Expr p value) cs line
           newnode rest Hout); [| done].
  cbn [node_pos]. rewrite getitem_from_end by lia. rewrite <- Hl. f_equal. lia.
Qed.

Lemma visit_Expr_line_from_end_witness :
  visit sample_parser sample_subproc_line ["echo hi"; "ls -la"]
    (Expr (at_ 0 0) (Name (at_ 0 0) "ls" Load)) [∅; ∅] =
  Return
    (with_pos (fun _ => at_ 0 0)
       (Expr (at_ 1 0)
          (Call (at_ 1 0) (Name (at_ 1 0) "__xonsh_subproc__" Load)
             [Other "Str" (at_ 1 0) []] [] None None)),
     [∅; ∅]).
Proof.
  apply (visit_Expr_line_from_end sample_parser sample_subproc_line
           ["echo hi"; "ls -la"] (at_ 0 0) (Name (at_ 0 0) "ls" Load)
           [∅; ∅] "ls -la" _ []).
  - simpl. lia.
  - reflexivity.
  - vm_compute. reflexivity.
  - reflexivity.
Defined.

(** X4.  An out-of-scope expression statement whose line number is past the
    last line of the input, or at or below minus the number of lines, makes
    the visit raise IndexError; with an empty input every line number does. *)
Theorem visit_Expr_line_out_of_range
    (parser : string -> parsed) (subproc_line : string -> string)
    (lines : list string) (p : pos) (value : node) (cs : contexts) :
  (lineno p <= - Z.of_nat (length lines) \/
   Z.of_nat (length lines) < lineno p)%Z ->
  lookup_in (leftmostname value) (reverse cs) = false ->
  visit parser subproc_line lines (Expr p value) cs = Raise IndexError.
Proof.
  intros Hp Hout. apply visit_Expr_raises_iff. split; [done |].
  split; [done |]. left. apply getitem_out_of_range. lia.
Qed.

Lemma visit_Expr_line_out_of_range_witness :
  visit sample_parser sample_subproc_line ["ls -la"]
    (Expr (at_ 2 0) (Name (at_ 2 0) "ls" Load)) [∅; ∅] = Raise IndexError.
Proof.
  apply (visit_Expr_line_out_of_range sample_parser sample_subproc_line
           ["ls -la"] (at_ 2 0) (Name (at_ 2 0) "ls" Load) [∅; ∅]).
  - right. simpl. lia.
  - vm_compute. reflexivity.
Defined.

(** X5.  An expression statement whose leftmost name is in any frame of the
    scope stack is returned as it is, with the stack as it was, whatever the
    parser, the source lines and the line number of the statement: neither
    the lines nor the parser are consulted. *)
Theorem visit_Expr_inscope_any_source
    (parser : string -> parsed) (subproc_line : string -> string)
    (lines : list string) (p : pos) (value : node) (cs : contexts)
    (ctx : frame) :
  ctx ∈ cs -> leftmostname value ∈ ctx ->
  visit parser subproc_line lines (Expr p value) cs =
    Return (Expr p value, cs).
Proof.
  intros Hctx Hin. cbn [visit]. apply visit_Expr_inscope.
  apply lookup_in_rev_true. eauto.
Qed.

Lemma visit_Expr_inscope_any_source_witness :
  visit failing_parser sample_subproc_line []
    (Expr (at_ 7 0) expr_B) [{[ Some "ls" ]}; ∅] =
  Return (Expr (at_ 7 0) expr_B, [{[ Some "ls" ]}; ∅]).
Proof.
  apply (visit_Expr_inscope_any_source failing_parser sample_subproc_line
           [] (at_ 7 0) expr_B [{[ Some "ls" ]}; ∅] {[ Some "ls" ]}).
  - left.
  - apply elem_of_singleton. reflexivity.
Defined.

(** ** What a run does to the scope stack *)

(** X6.  A visit that returns leaves the scope stack at the depth it had, and
    every name, or [None], that the scope test found before the visit it
    finds after it: nothing is ever unbound and no frame stays pushed. *)
Theorem visit_scope_only_grows
    (parser : string -> parsed) (subproc_line : string -> string)
    (lines : list string) (n : node) (cs : contexts) (r : node)
    (cs' : contexts) :
  visit parser subproc_line lines n cs = Return (r, cs') ->
  length cs' = length cs /\
  forall lname,
    lookup_in lname (reverse cs) = true ->
    lookup_in lname (reverse cs') = true.
Proof.
  intros H. apply visit_growing in H. split.
  - symmetry. by eapply Forall2_length.
  - intros lname. rewrite !lookup_in_rev_true. intros (ctx & Hin & Hx).
    apply list_elem_of_lookup in Hin as [i Hi].
    destruct (Forall2_lookup_l _ _ _ _ _ H Hi) as (ctx' & Hi' & [Hsub _]).
    exists ctx'. split; [by eapply list_elem_of_lookup_2 | by apply Hsub].
Qed.

Lemma visit_scope_only_grows_witness :
  length (declare_global ["x"] [{[ Some "ls" ]}; ∅]) =
    length [{[ Some "ls" ]}; ∅ : frame] /\
  forall lname,
    lookup_in lname (reverse [{[ Some "ls" ]}; ∅]) = true ->
    lookup_in lname (reverse (declare_global ["x"] [{[ Some "ls" ]}; ∅])) = true.
Proof.
  apply (visit_scope_only_grows sample_parser sample_subproc_line
           (splitlines source_global) tree_global [{[ Some "ls" ]}; ∅]
           tree_global_once).
  vm_compute. reflexivity.
Defined.

Lemma declare_global_nil cs : declare_global [] cs = cs.
Proof.
  unfold declare_global. cbn.
  destruct cs as [|c0 [|c1 rest]]; cbn; [done | done |].
  by rewrite (right_id_L ∅ (∪)).
Qed.

Lemma declare_global_app a b cs :
  declare_global b (declare_global a cs) = declare_global (a ++ b) cs.
Proof.
  unfold declare_global.
  destruct cs as [|c0 [|c1 rest]]; cbn; [done | done |].
  by rewrite fmap_app, list_to_set_app_L, (assoc_L (∪)).
Qed.

Lemma declares_refl G cs : declares G cs cs.
Proof. exists []. by rewrite declare_global_nil. Qed.

Lemma declares_trans G cs1 cs2 cs3 :
  declares G cs1 cs2 -> declares G cs2 cs3 -> declares G cs1 cs3.
Proof.
  intros (a & -> & Ha) (b & -> & Hb). exists (a ++ b).
  split; [by rewrite declare_global_app | by apply Forall_app].
Qed.

Lemma declares_mono (G G' : string -> Prop) cs cs' :
  (forall x, G x -> G' x) -> declares G cs cs' -> declares G' cs cs'.
Proof.
  intros HG (a & -> & Ha). exists a. split; [done |].
  eapply Forall_impl; [exact Ha | done].
Qed.

Lemma update_frame_1 f cs u cs' :
  update_frame 1 f cs = Return (u, cs') -> cs' = alter f 1 cs.
Proof.
  unfold update_frame, update_item, bind, get, put.
  destruct (_ && _); [| discriminate]. by intros [= <-].
Qed.

Section Effect.
Variable parser : string -> parsed.
Variable subproc_line : string -> string.
Variable lines : list string.

Lemma declaring_all G l :
  Forall (declaring parser subproc_line lines G) l ->
  forall cs l' cs',
    visit_all (visit parser subproc_line lines) l cs = Return (l', cs') ->
    declares G cs cs'.
Proof.
  induction 1 as [|x l Hx _ IH]; simpl; intros cs l' cs' H.
  - run_inv H. apply declares_refl.
  - run_inv H. eapply declares_trans; [by eapply Hx | by eapply IH].
Qed.

Lemma declaring_opt G o :
  Forall (declaring parser subproc_line lines G) (option_list o) ->
  forall cs o' cs',
    visit_opt (visit parser subproc_line lines) o cs = Return (o', cs') ->
    declares G cs cs'.
Proof.
  destruct o as [x|]; simpl; intros Hs cs o' cs' H; run_inv H.
  - inversion Hs as [|? ? Hx _]; subst. by eapply Hx.
  - apply declares_refl.
Qed.

Ltac effect_step :=
  match goal with
  | IH : declaring _ _ _ _ ?x, H : visit _ _ _ ?x _ = Return _ |- _ =>
      apply IH in H
  | IH : Forall _ (option_list ?o), H : visit_opt _ ?o _ = Return _ |- _ =>
      apply (declaring_opt _ _ IH) in H
  | IH : Forall _ ?l, H : visit_all _ ?l _ = Return _ |- _ =>
      apply (declaring_all _ _ IH) in H
  | H : for_each _ bind_withitem _ = Return _ |- _ =>
      apply (for_each_inv _ _ bind_withitem_inv) in H as [-> _]
  | H : for_each _ unbind_target _ = Return _ |- _ =>
      apply (for_each_inv _ _ unbind_target_inv) in H as [-> _]
  | H : for_each _ bind_handler _ = Return _ |- _ =>
      apply (for_each_inv _ _ bind_handler_inv) in H as [-> _]
  | H : for_each _ bind_target _ = Return _ |- _ =>
      apply (for_each_inv _ _ bind_target_never) in H as [-> _]
  | H : for_each _ bind_alias _ = Return _ |- _ =>
      apply (for_each_inv _ _ bind_alias_never) in H as [-> _]
  end.

Ltac effect_chain :=
  repeat (eapply declares_trans; [eassumption |]);
  first [ apply declares_refl | eassumption ].

Lemma visit_declaring n :
  declaring parser subproc_line lines (global_of n) n.
Proof.
  induction n as [n IH] using node_children_ind.
  assert (IH' : Forall (declaring parser subproc_line lines (global_of n))
                  (children n)).
  { apply Forall_forall. intros c Hc cs r cs' Hrun.
    apply (proj1 (Forall_forall _ _) IH c Hc) in Hrun.
    eapply declares_mono; [| exact Hrun].
    intros x (p & names & Hin & Hx). exists p, names.
    split; [by eapply inside_child | done]. }
  clear IH. intros cs r cs' H.
  destruct n; cbn [children] in IH';
    rewrite ?Forall_cons, ?Forall_app in IH'.
  all: open_visit H; try discriminate.
  all: try (apply visit_Expr_state in H as ->; apply declares_refl).
  all: run_inv H; no_bind_target.
  all: destruct_and?; repeat effect_step.
  all: try effect_chain.
  apply update_frame_1 in Hrun as ->. exists names. split; [done |].
  apply Forall_forall. intros x Hx. exists p, names.
  split; [apply inside_here | done].
Qed.
End Effect.

(** X7.  The only effect a visit that returns has on the scope stack is that
    of [self.contexts[1].update(names)] for some names, each declared by a
    [global] statement inside the visited tree.  The root context at index
    0 and every frame above index 1 are as they were, and a tree without
    [global] statements leaves the whole stack as it was. *)
Theorem visit_only_declares_globals
    (parser : string -> parsed) (subproc_line : string -> string)
    (lines : list string) (n : node) (cs : contexts) (r : node)
    (cs' : contexts) :
  visit parser subproc_line lines n cs = Return (r, cs') ->
  (exists names,
     cs' = declare_global names cs /\
     forall x, x ∈ names ->
       exists p declared, inside n (Global p declared) /\ x ∈ declared) /\
  (forall i, i <> 1 -> cs' !! i = cs !! i) /\
  ((forall p declared, ~ inside n (Global p declared)) -> cs' = cs).
Proof.
  intros H. apply visit_declaring in H as (names & -> & Hall).
  split; [| split].
  - exists names. split; [done |]. by apply Forall_forall.
  - intros i Hi. unfold declare_global. by apply list_lookup_alter_ne.
  - intros Hno. destruct names as [|x names]; [apply declare_global_nil |].
    inversion Hall as [|? ? (p & declared & Hin & _) _]; subst.
    by destruct (Hno p declared).
Qed.

Lemma visit_only_declares_globals_witness :
  (exists names,
     declare_global ["x"] [{[ Some "ls" ]}; ∅] =
       declare_global names [{[ Some "ls" ]}; ∅] /\
     forall x, x ∈ names ->
       exists p declared,
         inside tree_global (Global p declared) /\ x ∈ declared) /\
  (forall i, i <> 1 ->
     declare_global ["x"] [{[ Some "ls" ]}; ∅] !! i =
       [{[ Some "ls" ]}; ∅ : frame] !! i) /\
  ((forall p declared, ~ inside tree_global (Global p declared)) ->
   declare_global ["x"] [{[ Some "ls" ]}; ∅] = [{[ Some "ls" ]}; ∅]).
Proof.
  apply (visit_only_declares_globals sample_parser sample_subproc_line
           (splitlines source_global) tree_global [{[ Some "ls" ]}; ∅]
           tree_global_once).
  vm_compute. reflexivity.
Defined.

(** X11.  Visiting a [global] statement raises exactly when the scope stack
    has fewer than two frames, and then IndexError, from
    [self.contexts[1]]; a transformer whose [contexts] is still the empty
    list of [__init__] is in that case. *)
Theorem visit_Global_raises_iff
    (parser : string -> parsed) (subproc_line : string -> string)
    (lines : list string) (p : pos) (names : list string) (cs : contexts)
    (e : exn) :
  visit parser subproc_line lines (Global p names) cs = Raise e <->
  e = IndexError /\ length cs < 2.
Proof.
  cbn [visit]. unfold visit_Global, update_frame, update_item, bind, get, put.
  cbn [generic_visit].
  replace (1 <? 0)%Z with false by reflexivity.
  replace (0 <=? 1)%Z with true by reflexivity. cbn [andb].
  destruct (Z.ltb_spec 1 (Z.of_nat (length cs))).
  - split; [discriminate | intros [_ ?]; lia].
  - split; [intros [= <-]; split; [done | lia] | by intros [-> _]].
Qed.

(** ** Which trees a run gets through *)

Ltac walk_inv :=
  repeat match goal with
  | H : _ ∈ children _ |- _ => cbn [children app option_list] in H
  | H : _ ∈ _ :: _ |- _ => apply elem_of_cons in H as [-> | H]
  | H : _ ∈ [] |- _ => apply elem_of_nil in H; destruct H
  | H : recursed _ = true |- _ => first [discriminate H | clear H]
  | H : walked ?n _ |- _ =>
      tryif is_var n then fail else (inversion H; subst; clear H)
  | H : inside ?n _ |- _ =>
      tryif is_var n then fail else (inversion H; subst; clear H)
  end.

Section Walk.
Variable parser : string -> parsed.
Variable subproc_line : string -> string.
Variable lines : list string.

Lemma visit_all_returns l cs l' cs' :
  visit_all (visit parser subproc_line lines) l cs = Return (l', cs') ->
  Forall (returns parser subproc_line lines) l.
Proof.
  revert cs l'. induction l as [|x l IH]; simpl; intros cs l' H;
    [constructor |].
  run_inv H. constructor; [by repeat eexists | by eapply IH].
Qed.

Lemma visit_opt_returns o cs o' cs' :
  visit_opt (visit parser subproc_line lines) o cs = Return (o', cs') ->
  Forall (returns parser subproc_line lines) (option_list o).
Proof.
  destruct o as [x|]; simpl; intros H; [| constructor].
  run_inv H. constructor; [by repeat eexists | constructor].
Qed.

(** When the visit of a node returns, the visit of each child the walk goes
    on to has returned. *)
Lemma children_return n cs r cs' :
  visit parser subproc_line lines n cs = Return (r, cs') ->
  recursed n = true ->
  Forall (returns parser subproc_line lines) (children n).
Proof.
  intros H Hrec. destruct n; try discriminate Hrec; open_visit H;
    try discriminate; run_inv H; no_bind_target.
  all: cbn [children].
  all: repeat first
         [ apply List.Forall_nil
         | apply List.Forall_cons; [by repeat eexists |]
         | apply Forall_app; split
         | by eapply visit_opt_returns
         | by eapply visit_all_returns ].
Qed.

Lemma existsb_false_Forall {A} (f : A -> bool) l :
  Forall (fun x => f x = false) l -> existsb f l = false.
Proof. induction 1 as [|x l Hx _ IH]; simpl; [done | by rewrite Hx]. Qed.

Lemma return_binds_not n cs r cs' :
  visit parser subproc_line lines n cs = Return (r, cs') -> binds n = false.
Proof.
  intros H. destruct n; try reflexivity; open_visit H; try discriminate;
    run_inv H; no_bind_target.
  all: cbn [binds].
  - apply (for_each_inv _ _ bind_target_never) in Hrun as [_ Hall].
    destruct targets; [done | by inversion Hall].
  - apply (for_each_inv _ _ unbind_target_inv) in Hrun as [_ Hall].
    apply existsb_false_Forall. eapply Forall_impl; [exact Hall |].
    intros x. by destruct x.
  - apply (for_each_inv _ _ bind_alias_never) in Hrun as [_ Hall].
    destruct names; [done | by inversion Hall].
  - apply (for_each_inv _ _ bind_alias_never) in Hrun as [_ Hall].
    destruct names; [done | by inversion Hall].
  - apply (for_each_inv _ _ bind_withitem_inv) in Hrun as [_ Hall].
    apply existsb_false_Forall. eapply Forall_impl; [exact Hall |].
    intros x.
    destruct x as [| | | | | | | | | | | | | | | | | | | | | |? ? [v|]| | |];
      by cbn.
  - apply (for_each_inv _ _ bind_handler_inv) in Hrun as [_ Hall].
    apply existsb_false_Forall. eapply Forall_impl; [exact Hall |].
    intros x. unfold observed, has_handler_name. cbn [snd]. by intros ->.
Qed.

Lemma returns_walked n m :
  returns parser subproc_line lines n -> walked n m ->
  returns parser subproc_line lines m.
Proof.
  intros Hn Hw. induction Hw as [n | n c m Hrec Hc _ IH]; [done |].
  apply IH. destruct Hn as (cs & r & cs' & Hn).
  pose proof (children_return _ _ _ _ Hn Hrec) as Hall.
  by apply (proj1 (Forall_forall _ _) Hall).
Qed.
End Walk.

(** X8.  A run that returns has met no binding statement: among the nodes
    the walk reaches there is no [for], [def] or [class], no assignment or
    import with a target or name, no [with ... as], no [del] of a plain
    name and no [except ... as]. *)
Theorem ctxvisit_returns_no_binder
    (parser : string -> parsed) (subproc_line : string -> string)
    (n : node) (input : string) (ctx : frame) (r : node) (m : node) :
  ctxvisit parser subproc_line n input ctx = Return r ->
  walked n m -> binds m = false.
Proof.
  intros H Hw. apply ctxvisit_inv in H as [cs' H].
  destruct (returns_walked parser subproc_line (splitlines input) n m)
    as (c1 & r1 & c2 & Hm); [by repeat eexists | done |].
  by eapply return_binds_not.
Qed.

Lemma ctxvisit_returns_no_binder_witness :
  binds (Global (at_ 1 0) ["x"]) = false.
Proof.
  apply (ctxvisit_returns_no_binder sample_parser sample_subproc_line
           tree_global source_global ∅ tree_global_once
           (Global (at_ 1 0) ["x"])).
  - vm_compute. reflexivity.
  - apply (walked_child tree_global (Global (at_ 1 0) ["x"]));
      [reflexivity | left | apply walked_here].
Defined.

(** X12.  A run stops at the first statement whose visit raises: when the
    statements before it are visited without error and it raises, the run
    on the module raises that exception, whatever follows, and no tree is
    returned. *)
Theorem ctxvisit_raises_at_first_failure
    (parser : string -> parsed) (subproc_line : string -> string)
    (q : pos) (before : list node) (stmt : node) (after : list node)
    (input : string) (ctx : frame) (before' : list node) (cs : contexts)
    (e : exn) :
  visit_all (visit parser subproc_line (splitlines input)) before [ctx; ∅] =
    Return (before', cs) ->
  visit parser subproc_line (splitlines input) stmt cs = Raise e ->
  ctxvisit parser subproc_line (Module q (before ++ stmt :: after)) input ctx =
    Raise e.
Proof.
  intros Hb Hs. unfold ctxvisit.
  change (visit parser subproc_line (splitlines input)
            (Module q (before ++ stmt :: after)))
    with (generic_visit (visit parser subproc_line (splitlines input))
            (Module q (before ++ stmt :: after))).
  cbn [generic_visit].
  erewrite bind_raise; [reflexivity |].
  revert before' Hb. generalize [ctx; ∅ : frame].
  induction before as [|x l IH]; simpl; intros c0 before' Hb.
  - run_inv Hb. by apply bind_raise.
  - run_inv Hb. unfold bind at 1. rewrite Hrun. unfold bind at 1.
    by erewrite IH.
Qed.

Lemma ctxvisit_raises_at_first_failure_witness :
  ctxvisit sample_parser sample_subproc_line
    (Module (at_ 1 0)
       ([Global (at_ 1 0) ["x"]] ++
        Assign (at_ 2 0) [Name (at_ 2 0) "foo" Store] (Other "Num" (at_ 2 6) [])
        :: [Expr (at_ 3 0) (Name (at_ 3 0) "x" Load)]))
    source_late ∅ = Raise TypeError.
Proof.
  apply (ctxvisit_raises_at_first_failure sample_parser sample_subproc_line
           (at_ 1 0) [Global (at_ 1 0) ["x"]] _ _ source_late ∅
           [Global (at_ 1 0) ["x"]] (declare_global ["x"] [∅; ∅])).
  - vm_compute. reflexivity.
  - reflexivity.
Defined.

(** ** Trees a run returns as they are *)

Section Fixed.
Variable parser : string -> parsed.
Variable subproc_line : string -> string.
Variable lines : list string.

Lemma fixed_all l : Forall (fixed parser subproc_line lines) l ->
  forall cs, visit_all (visit parser subproc_line lines) l cs = Return (l, cs).
Proof.
  induction 1 as [|x l Hx _ IH]; simpl; intros cs; [done |].
  eapply bind_intro; [apply Hx |]. eapply bind_intro; [apply IH | done].
Qed.

Lemma fixed_opt o : Forall (fixed parser subproc_line lines) (option_list o) ->
  forall cs, visit_opt (visit parser subproc_line lines) o cs = Return (o, cs).
Proof.
  destruct o as [x|]; simpl; intros Hs cs; [| done].
  inversion Hs as [|? ? Hx _]; subst. eapply bind_intro; [apply Hx | done].
Qed.

Lemma visit_plain n :
  (forall m, inside n m -> has_method m = false) ->
  fixed parser subproc_line lines n.
Proof.
  induction n as [n IH] using node_children_ind. intros Hplain.
  assert (IH' : Forall (fixed parser subproc_line lines) (children n)).
  { apply Forall_forall. intros c Hc.
    apply (proj1 (Forall_forall _ _) IH c Hc).
    intros m Hm. apply Hplain. by eapply inside_child. }
  clear IH. pose proof (Hplain n (inside_here n)) as Hn. clear Hplain.
  intros cs.
  destruct n; try discriminate Hn; cbn [children] in IH';
    rewrite ?Forall_cons, ?Forall_app in IH'; destruct_and?;
    cbn [visit generic_visit];
    repeat first
      [ reflexivity
      | eapply bind_intro;
          [ first [ by apply fixed_opt | by apply fixed_all
                  | match goal with
                    | H : fixed _ _ _ ?x |- _ => apply H
                    end ] |] ].
Qed.
End Fixed.

(** X9.  A tree with no node of a class the transformer has a method for,
    such as any expression, is returned as it is, with the scope stack as
    it was, by a visit that always returns: walking into the value of an
    assignment or of an expression statement could change nothing. *)
Theorem visit_plain_unchanged
    (parser : string -> parsed) (subproc_line : string -> string)
    (lines : list string) (n : node) (cs : contexts) :
  (forall m, inside n m -> has_method m = false) ->
  visit parser subproc_line lines n cs = Return (n, cs).
Proof. intros Hplain. by apply visit_plain. Qed.

Lemma visit_plain_unchanged_witness :
  visit failing_parser sample_subproc_line [] expr_B [∅; ∅] =
    Return (expr_B, [∅; ∅]).
Proof.
  apply (visit_plain_unchanged failing_parser sample_subproc_line []
           expr_B [∅; ∅]).
  intros m Hm. unfold expr_B in Hm. walk_inv; reflexivity.
Defined.

(** X10.  A name [leftmostname] returns is the identifier of a [Name] node
    inside the node it was given. *)
Theorem leftmostname_occurs (n : node) (name : string) :
  leftmostname n = Some name -> exists p ctx, inside n (Name p name ctx).
Proof.
  induction n as [n IH] using node_children_ind.
  destruct n; cbn [leftmostname]; try discriminate; cbn [children] in IH;
    rewrite ?Forall_cons in IH; destruct_and?; intros Hl.
  all: try match goal with
       | IHc : leftmostname ?c = Some _ -> _ |- _ =>
           destruct (IHc Hl) as (q & c' & Hin); exists q, c';
           apply (inside_child _ c); [cbn [children]; by left | done]
       end.
  injection Hl as ->. eexists _, _. apply inside_here.
Qed.

Lemma leftmostname_occurs_witness :
  exists p ctx, inside (Expr (at_ 1 0) expr_B) (Name p "ls" ctx).
Proof.
  apply (leftmostname_occurs (Expr (at_ 1 0) expr_B) "ls"). reflexivity.
Defined.

Lemma lookup_in_grows lname cs cs' :
  scope_grows cs cs' ->
  lookup_in lname (reverse cs) = true -> lookup_in lname (reverse cs') = true.
Proof.
  intros H. rewrite !lookup_in_rev_true. intros (ctx & Hin & Hx).
  apply list_elem_of_lookup in Hin as [i Hi].
  destruct (Forall2_lookup_l _ _ _ _ _ H Hi) as (ctx' & Hi' & [Hsub _]).
  exists ctx'. split; [by eapply list_elem_of_lookup_2 | by apply Hsub].
Qed.

Section Settled.
Variable parser : string -> parsed.
Variable subproc_line : string -> string.
Variable lines : list string.

Lemma settled_grows cs cs' n :
  scope_grows cs cs' ->
  settled parser subproc_line lines cs n ->
  settled parser subproc_line lines cs' n.
Proof.
  intros Hg Hk m p v Hw Hm. destruct (Hk m p v Hw Hm) as [Hin | Hrej];
    [left; by eapply lookup_in_grows | by right].
Qed.

Lemma settled_child cs n c :
  recursed n = true -> c ∈ children n ->
  settled parser subproc_line lines cs n ->
  settled parser subproc_line lines cs c.
Proof.
  intros Hrec Hc Hk m p v Hw Hm. eapply Hk; [| exact Hm].
  by eapply walked_child.
Qed.

Lemma visit_all_grows l cs l' cs' :
  visit_all (visit parser subproc_line lines) l cs = Return (l', cs') ->
  scope_grows cs cs'.
Proof.
  apply growing_all. apply Forall_forall. intros c _. apply visit_growing.
Qed.

Lemma visit_opt_grows o cs o' cs' :
  visit_opt (visit parser subproc_line lines) o cs = Return (o', cs') ->
  scope_grows cs cs'.
Proof.
  apply growing_opt. apply Forall_forall. intros c _. apply visit_growing.
Qed.

Lemma unchanged_all l : Forall (unchanged parser subproc_line lines) l ->
  forall cs l' cs',
    (forall c, c ∈ l -> settled parser subproc_line lines cs c) ->
    visit_all (visit parser subproc_line lines) l cs = Return (l', cs') ->
    l' = l.
Proof.
  induction 1 as [|x l Hx _ IH]; simpl; intros cs l' cs' Hk H; run_inv H;
    [done |].
  pose proof (visit_growing _ _ _ _ _ _ _ Hrun) as Hg.
  apply Hx in Hrun as ->; [| apply Hk; by left].
  apply IH in Hrun0 as ->; [done |].
  intros c Hc. eapply settled_grows; [exact Hg |]. apply Hk. by right.
Qed.

Lemma unchanged_opt o :
  Forall (unchanged parser subproc_line lines) (option_list o) ->
  forall cs o' cs',
    (forall c, c ∈ option_list o -> settled parser subproc_line lines cs c) ->
    visit_opt (visit parser subproc_line lines) o cs = Return (o', cs') ->
    o' = o.
Proof.
  destruct o as [x|]; simpl; intros Hs cs o' cs' Hk H; run_inv H; [| done].
  inversion Hs as [|? ? Hx _]; subst.
  apply Hx in Hrun as ->; [done |]. apply Hk. by left.
Qed.

Ltac settled_step :=
  match goal with
  | H : for_each _ bind_withitem _ = Return _ |- _ =>
      apply (for_each_inv _ _ bind_withitem_inv) in H as [-> _]
  | H : for_each _ unbind_target _ = Return _ |- _ =>
      apply (for_each_inv _ _ unbind_target_inv) in H as [-> _]
  | H : for_each _ bind_handler _ = Return _ |- _ =>
      apply (for_each_inv _ _ bind_handler_inv) in H as [-> _]
  | K : forall c, _ -> settled _ _ _ ?s c, IH : unchanged _ _ _ ?x,
    H : visit _ _ _ ?x ?s = Return (_, ?s') |- _ =>
      let Hg := fresh "Hg" in
      pose proof (visit_growing _ _ _ _ _ _ _ H) as Hg;
      apply IH in H as ->; [| apply K; set_solver];
      let K' := fresh "K" in
      assert (K' : forall c, c ∈ _ -> settled parser subproc_line lines s' c)
        by (intros c Hc; eapply settled_grows; [exact Hg | by apply K]);
      clear K Hg
  | K : forall c, _ -> settled _ _ _ ?s c, IH : Forall _ (option_list ?o),
    H : visit_opt _ ?o ?s = Return (_, ?s') |- _ =>
      let Hg := fresh "Hg" in
      pose proof (visit_opt_grows _ _ _ _ H) as Hg;
      apply (unchanged_opt _ IH) in H as ->;
        [| intros c Hc; apply K; set_solver];
      let K' := fresh "K" in
      assert (K' : forall c, c ∈ _ -> settled parser subproc_line lines s' c)
        by (intros c Hc; eapply settled_grows; [exact Hg | by apply K]);
      clear K Hg
  | K : forall c, _ -> settled _ _ _ ?s c, IH : Forall _ ?l,
    H : visit_all _ ?l ?s = Return (_, ?s') |- _ =>
      let Hg := fresh "Hg" in
      pose proof (visit_all_grows _ _ _ _ H) as Hg;
      apply (unchanged_all _ IH) in H as ->;
        [| intros c Hc; apply K; set_solver];
      let K' := fresh "K" in
      assert (K' : forall c, c ∈ _ -> settled parser subproc_line lines s' c)
        by (intros c Hc; eapply settled_grows; [exact Hg | by apply K]);
      clear K Hg
  end.

Lemma visit_unchanged n : unchanged parser subproc_line lines n.
Proof.
  induction n as [n IH] using node_children_ind.
  intros cs r cs' Hk H.
  destruct (recursed n) eqn:Hrec.
  2: { destruct n; try discriminate Hrec; open_visit H.
       - destruct (Hk (Expr p n) p n (walked_here _) eq_refl)
           as [Hin | (line & Hl & Hrej)].
         + rewrite visit_Expr_inscope in H; [by injection H as <- _ | done].
         + rewrite (visit_Expr_rejected _ _ _ _ _ line) in H by done.
           by injection H as <- _.
       - by run_inv H.
       - by run_inv H.
       - by run_inv H. }
  assert (K : forall c, c ∈ children n ->
              settled parser subproc_line lines cs c).
  { intros c Hc. by eapply settled_child. }
  clear Hk.
  destruct n; try discriminate Hrec; clear Hrec; cbn [children] in IH, K;
    rewrite ?Forall_cons, ?Forall_app in IH; destruct_and?;
    open_visit H; try discriminate; run_inv H; no_bind_target.
  all: repeat settled_step.
  all: reflexivity.
Qed.
End Settled.

(** X13.  When every expression statement the walk reaches has its leftmost
    name in the root context, or has a source line the parser rejects, a
    run that returns returns the tree it was given. *)
Theorem ctxvisit_settled_unchanged
    (parser : string -> parsed) (subproc_line : string -> string)
    (n : node) (input : string) (ctx : frame) (r : node) :
  (forall m p v, walked n m -> m = Expr p v ->
     leftmostname v ∈ ctx \/
     exists line,
       getitem (splitlines input) (lineno p - 1) = Some line /\
       parser (subproc_line line) = SyntaxError) ->
  ctxvisit parser subproc_line n input ctx = Return r ->
  r = n.
Proof.
  intros Hk H. apply ctxvisit_inv in H as [cs' H].
  eapply visit_unchanged; [| exact H].
  intros m p v Hw Hm. destruct (Hk m p v Hw Hm) as [Hin | Hrej]; [| by right].
  left. apply lookup_in_rev_true. exists ctx. split; [by left | done].
Qed.

Lemma ctxvisit_settled_unchanged_witness : tree_B = tree_B.
Proof.
  apply (ctxvisit_settled_unchanged sample_parser sample_subproc_line
           tree_B source_B {[ Some "ls" ]} tree_B).
  - intros m p v Hw ->. left. unfold tree_B in Hw. walk_inv.
    apply elem_of_singleton. reflexivity.
  - vm_compute. reflexivity.
Defined.

(** ** Trees a run gets through *)

Lemma bind_exists {A B} (m : M A) (k : A -> M B) cs a cs1 :
  m cs = Return (a, cs1) ->
  (exists r cs', k a cs1 = Return (r, cs') /\ length cs' = length cs1) ->
  length cs1 = length cs ->
  exists r cs', bind m k cs = Return (r, cs') /\ length cs' = length cs.
Proof.
  intros Hm (r & cs' & Hk & Hl) Hl1. exists r, cs'.
  split; [by eapply bind_intro | congruence].
Qed.

Lemma existsb_false_inv {A} (f : A -> bool) l :
  existsb f l = false -> Forall (fun x => f x = false) l.
Proof.
  induction l as [|x l IH]; simpl; [constructor |].
  intros [Hx Hl]%orb_false_iff. constructor; [done | by apply IH].
Qed.

Lemma unbind_loop_passes targets cs :
  existsb is_Name targets = false ->
  for_each targets unbind_target cs = Return (tt, cs).
Proof.
  intros H%existsb_false_inv.
  apply (for_each_intro unbind_target (fun x => is_Name x = false));
    [| done].
  intros x c Hx. by apply unbind_target_ok.
Qed.

Lemma with_loop_passes items cs :
  existsb has_as_target items = false ->
  Forall (fun i => is_withitem i = true) items ->
  for_each items bind_withitem cs = Return (tt, cs).
Proof.
  intros H%existsb_false_inv Hw.
  apply (for_each_intro bind_withitem
           (fun x => has_as_target x = false /\ is_withitem x = true)).
  - intros x c [Hx Hi]. apply bind_withitem_ok.
    destruct x as [| | | | | | | | | | | | | | | | | | | | | |? ? [v|]| | |];
      by try discriminate.
  - apply Forall_and. by split.
Qed.

Lemma try_loop_passes handlers cs :
  existsb has_handler_name handlers = false ->
  Forall (fun h => attr_name h <> None) handlers ->
  for_each handlers bind_handler cs = Return (tt, cs).
Proof.
  intros H%existsb_false_inv Hw.
  apply (for_each_intro bind_handler
           (fun x => has_handler_name x = false /\ attr_name x <> None)).
  - intros x c [Hx Hi]. apply bind_handler_ok. unfold observed. cbn [snd].
    unfold has_handler_name in Hx.
    by destruct (attr_name x) as [[name|]|].
  - apply Forall_and. by split.
Qed.

Section Passable.
Variable parser : string -> parsed.
Variable subproc_line : string -> string.
Variable lines : list string.

Lemma passing_all l : Forall (passing parser subproc_line lines) l ->
  forall cs, 2 <= length cs ->
    (forall c, c ∈ l -> forall m, walked c m ->
       passable parser subproc_line lines m) ->
    exists l' cs',
      visit_all (visit parser subproc_line lines) l cs = Return (l', cs') /\
      length cs' = length cs.
Proof.
  induction 1 as [|x l Hx _ IH]; simpl; intros cs Hlen Hp.
  - by exists [], cs.
  - destruct (Hx cs Hlen) as (x' & cs1 & Hrun & Hl1); [apply Hp; by left |].
    destruct (IH cs1) as (l' & cs2 & Hrun2 & Hl2);
      [lia | intros c Hc; apply Hp; by right |].
    exists (x' :: l'), cs2. split; [| congruence].
    eapply bind_intro; [exact Hrun |]. eapply bind_intro; [exact Hrun2 | done].
Qed.

Lemma passing_opt o :
  Forall (passing parser subproc_line lines) (option_list o) ->
  forall cs, 2 <= length cs ->
    (forall c, c ∈ option_list o -> forall m, walked c m ->
       passable parser subproc_line lines m) ->
    exists o' cs',
      visit_opt (visit parser subproc_line lines) o cs = Return (o', cs') /\
      length cs' = length cs.
Proof.
  destruct o as [x|]; simpl; intros Hs cs Hlen Hp.
  - inversion Hs as [|? ? Hx _]; subst.
    destruct (Hx cs Hlen) as (x' & cs1 & Hrun & Hl1); [apply Hp; by left |].
    exists (Some x'), cs1. split; [| done].
    eapply bind_intro; [exact Hrun | done].
  - by exists None, cs.
Qed.

Lemma visit_Expr_passes p v cs :
  passable parser subproc_line lines (Expr p v) ->
  exists r cs',
    visit_Expr parser subproc_line lines (Expr p v) cs = Return (r, cs') /\
    length cs' = length cs.
Proof.
  intros [_ (line & Hl & Hp)]. unfold visit_Expr, bind, get.
  destruct (lookup_in _ _); [by eexists _, _ |].
  cbn [node_pos]. rewrite Hl.
  destruct (parser _) as [[|newnode rest]|]; [done | | by eexists _, _].
  rewrite getitem_0. by eexists _, _.
Qed.

Ltac pass_field :=
  lazymatch goal with
  | |- exists r cs', bind (visit _ _ _ ?x) _ ?s = Return _ /\ _ =>
      let a := fresh "a" in let s1 := fresh "cs" in
      let Hr := fresh "Hrun" in let Hl := fresh "Hlen" in
      match goal with
      | IH : passing _ _ _ x, K : forall c, _ -> forall m, _ -> passable _ _ _ m,
        Hs : 2 <= length s |- _ =>
          destruct (IH s Hs) as (a & s1 & Hr & Hl); [apply K; set_solver |];
          eapply bind_exists; [exact Hr | | exact Hl];
          assert (2 <= length s1) by lia
      end
  | |- exists r cs', bind (visit_opt _ ?o) _ ?s = Return _ /\ _ =>
      let a := fresh "a" in let s1 := fresh "cs" in
      let Hr := fresh "Hrun" in let Hl := fresh "Hlen" in
      match goal with
      | IH : Forall _ (option_list o),
        K : forall c, _ -> forall m, _ -> passable _ _ _ m,
        Hs : 2 <= length s |- _ =>
          destruct (passing_opt o IH s Hs) as (a & s1 & Hr & Hl);
            [intros c Hc; apply K; set_solver |];
          eapply bind_exists; [exact Hr | | exact Hl];
          assert (2 <= length s1) by lia
      end
  | |- exists r cs', bind (visit_all _ ?l) _ ?s = Return _ /\ _ =>
      let a := fresh "a" in let s1 := fresh "cs" in
      let Hr := fresh "Hrun" in let Hl := fresh "Hlen" in
      match goal with
      | IH : Forall _ l,
        K : forall c, _ -> forall m, _ -> passable _ _ _ m,
        Hs : 2 <= length s |- _ =>
          destruct (passing_all l IH s Hs) as (a & s1 & Hr & Hl);
            [intros c Hc; apply K; set_solver |];
          eapply bind_exists; [exact Hr | | exact Hl];
          assert (2 <= length s1) by lia
      end
  | |- exists r cs', ret _ ?s = Return _ /\ _ => by eexists _, _
  end.

Lemma visit_passing n : passing parser subproc_line lines n.
Proof.
  induction n as [n IH] using node_children_ind.
  intros cs Hlen Hp.
  pose proof (Hp n (walked_here n)) as [Hb Hn].
  destruct (recursed n) eqn:Hrec.
  2: { destruct n; try discriminate Hrec; cbn [visit].
       - by apply visit_Expr_passes.
       - cbn [binds] in Hb. destruct targets; [| done].
         by eexists _, _.
       - cbn [binds] in Hb. destruct names; [| done]. by eexists _, _.
       - cbn [binds] in Hb. destruct names; [| done]. by eexists _, _. }
  assert (K : forall c, c ∈ children n -> forall m, walked c m ->
              passable parser subproc_line lines m).
  { intros c Hc m Hm. apply Hp. by eapply walked_child. }
  clear Hp.
  destruct n; try discriminate Hrec; try discriminate Hb; clear Hrec;
    cbn [children] in IH, K;
    rewrite ?Forall_cons, ?Forall_app in IH; destruct_and?;
    cbn [visit visit_With visit_Delete visit_Try visit_Global generic_visit].
  all: try (repeat pass_field; fail).
  - eapply bind_exists; [by apply unbind_loop_passes | | done].
    repeat pass_field.
  - eapply bind_exists; [by apply with_loop_passes | | done].
    repeat pass_field.
  - eapply bind_exists; [by apply try_loop_passes | | done].
    repeat pass_field.
  - unfold update_frame, bind, get, put, ret.
    rewrite update_item_1 by done. eexists _, _. split; [done |].
    apply length_alter.
Qed.
End Passable.

(** X14.  A run returns on every tree in which each node the walk reaches
    is passable: no binding statement, every expression statement with a
    line number inside the input and a parse that is not an empty module,
    well-formed [with] items and [try] handlers. *)
Theorem ctxvisit_returns_when_passable
    (parser : string -> parsed) (subproc_line : string -> string)
    (n : node) (input : string) (ctx : frame) :
  (forall m, walked n m ->
     passable parser subproc_line (splitlines input) m) ->
  exists r, ctxvisit parser subproc_line n input ctx = Return r.
Proof.
  intros Hp.
  destruct (visit_passing parser subproc_line (splitlines input) n [ctx; ∅])
    as (r & cs' & Hrun & _); [simpl; lia | done |].
  exists r. by eapply ctxvisit_intro.
Qed.

Lemma ctxvisit_returns_when_passable_witness :
  exists r,
    ctxvisit sample_parser sample_subproc_line tree_global source_global ∅ =
      Return r.
Proof.
  apply (ctxvisit_returns_when_passable sample_parser sample_subproc_line
           tree_global source_global ∅).
  intros m Hw. unfold tree_global in Hw. walk_inv.
  all: split; [reflexivity |]; cbn; try done.
  all: eexists; split; [reflexivity | discriminate].
Defined.
